(** * Sparse-table range-minimum queries and Euler-tour lowest common ancestors

    A shallow embedding of [RMQ.hpp], [algorithms.hpp] and [lca.hpp], and the
    properties of the sparse-table builders, the two queries, the
    first-occurrence scan and the LCA front end.

    Conventions of the embedding.
    - The templates are instantiated at unsigned element values, as the tests
      do: a sequence is a [list nat], compared with [<=] and [<].
    - An iterator into a sequence is the position it designates; dereferencing
      looks the position up in the sequence.  An input iterator that is only
      advanced and read is the suffix of the sequence that remains.
    - Everything that is undefined behaviour or a failed [assert] in C++ (a read
      or write outside a container, a dereference past the end) yields [None].
    - Sizes and positions are [nat].  The source computes on unsigned values
      (a 64-bit [size_t]).  In the builders and in the 2D query every
      subtraction is guarded by the loop bounds (the minuend is never the
      smaller operand), so it is written on [nat] directly.  In
      [translate_sparse_table] and in the second window of
      [query_sparse_table] an intermediate result can leave the range before
      a later operation brings it back; these expressions are evaluated over
      [Z] and reduced modulo 2^64 by [wrap].  The 2D builder keeps
      [prev_block_length] in a 32-bit [unsigned] ([auto ... = 2u]): what is
      assigned to it is reduced modulo 2^32 by [wrap32].
    - [lca.hpp] calls [preprocess_sparse_table(L, M)] and
      [query_sparse_table(i, j, L, M)], which [RMQ.hpp] does not declare with
      these parameters.  The callees are parameters of [lca_preprocess] and
      [lca_query]; the statements about them name the functions they are
      instantiated with. *)

From stdpp Require Import base option list sorting gmap.
From Stdlib Require Import Lia Arith ZArith.

(** ** Counted loops *)

(** [for_loop cnt i body s] runs [body i], [body (i+1)], ... [cnt] times,
    threading the state and stopping at the first failure: the shape of
    [for (i = lo; i != hi; i++)] with [cnt = hi - lo]. *)
Fixpoint for_loop {St : Type} (cnt i : nat) (body : nat → St → option St)
    (s : St) : option St :=
  match cnt with
  | 0 => Some s
  | S cnt' => s' ← body i s; for_loop cnt' (S i) body s'
  end.

(** ** Unsigned arithmetic *)

(** The value of an unsigned 64-bit expression whose exact value is [z]. *)
Definition wrap (z : Z) : nat := Z.to_nat (z mod 2 ^ 64).

(** The value a 32-bit [unsigned] holds after the exact value [z] has been
    assigned to it. *)
Definition wrap32 (z : Z) : nat := Z.to_nat (z mod 2 ^ 32).

Module general.

(** Modelled from the spec: [lower_log2] is declared in a header of namespace
    [general] that is not among the sources; the spec uses it as the floor of
    the binary logarithm (levels run from 1 to ⌊log2 n⌋, k = ⌊log2 (j-i+1)⌋),
    and the unit test expects 0, 1, 1, 6, 9, 13 at 1, 2, 3, 100, 1000, 10000. *)
Definition lower_log2 (n : nat) : nat := Nat.log2 n.

(** Modelled from the spec: [pow2] comes from the same missing header; the
    spec's window length at level j is 2^j. *)
Definition pow2 (j : nat) : nat := 2 ^ j.

(** *** The 2D table of indexes (a [boost::multi_array] allocated by the caller) *)

Abbreviation table2 := (list (list nat)).

Definition read2 (M : table2) (j i : nat) : option nat :=
  row ← M !! j; row !! i.

Definition write2 (M : table2) (j i v : nat) : option table2 :=
  row ← M !! j;
  if decide (i < length row) then Some (<[j := <[i := v]> row]> M) else None.

(** [index_preprocess_sparse_table(A, M)].  The three loops are named so that
    they can be reasoned about one at a time: the level-1 loop over [i], the
    loop over [i] inside a level [j >= 2], and the loop over the levels, whose
    state carries [prev_block_length], declared [auto prev_block_length = 2u]
    and so narrowed to 32 bits by the assignment that ends a level. *)
Definition index_level1_body (A : list nat) (j i : nat) (M : table2)
    : option table2 :=
  a ← A !! i; b ← A !! (i + 1);
  write2 M j i (if bool_decide (a ≤ b) then i else i + 1).

Definition index_level_body (A : list nat) (j prev_block_length i : nat)
    (M : table2) : option table2 :=
  M1 ← read2 M (j - 1) i;
  M2 ← read2 M (j - 1) (i + prev_block_length);
  a1 ← A !! M1; a2 ← A !! M2;
  write2 M j i (if bool_decide (a2 < a1) then M2 else M1).

Definition index_levels_body (A : list nat) (n j : nat) (s : nat * table2)
    : option (nat * table2) :=
  let '(prev_block_length, M) := s in
  let block_length := pow2 j in
  let last_pos := n - block_length + 1 in
  M ← for_loop last_pos 0 (index_level_body A j prev_block_length) M;
  Some (wrap32 (Z.of_nat block_length), M).

Definition index_preprocess_sparse_table (A : list nat) (M : table2)
    : option table2 :=
  if decide (2 < length A) then      (* A.size() > 2 *)
    let j := 1 in
    M ← for_loop (length A - 1) 0 (index_level1_body A j) M;
    let n := length A in
    let lowerlogn := lower_log2 n in
    '(_, M) ← for_loop (lowerlogn + 1 - 2) 2 (index_levels_body A n) (2, M);
    Some M
  else Some M.

(** *** The flat table of iterators (a [std::vector<I>] grown by [push_back]) *)

(** [preprocess_sparse_table(first, last, M)] with [first = begin(A)] and
    [last = end(A)]; the iterators stored in [M] point into [A].  The loops
    are named as above; the level-1 loop runs over [second] and carries
    [first], the loop inside a level carries [Mi], the loop over the levels
    carries [block_length_2]. *)
Definition level1_body (A : list nat) (second : nat) (s : nat * list nat)
    : option (nat * list nat) :=
  let '(first, M) := s in
  a ← A !! first; b ← A !! second;
  Some (S first, M ++ [if bool_decide (a ≤ b) then first else second]).

Definition level_body (A : list nat) (block_length_2 i : nat)
    (s : nat * list nat) : option (nat * list nat) :=
  let '(Mi, M) := s in
  M1 ← M !! Mi; M2 ← M !! (Mi + block_length_2);
  a1 ← A !! M1; a2 ← A !! M2;
  Some (S Mi, M ++ [if bool_decide (a2 < a1) then M2 else M1]).

Definition levels_body (A : list nat) (n j : nat) (s : nat * list nat)
    : option (nat * list nat) :=
  let '(block_length_2, M) := s in
  let block_length := 2 * block_length_2 in
  let last_pos := n - block_length + 1 in
  let Mi := length M - (n - block_length_2 + 1) in
  '(_, M) ← for_loop last_pos 0 (level_body A block_length_2) (Mi, M);
  Some (block_length, M).

Definition preprocess_sparse_table (A : list nat) (M : list nat)
    : option (list nat) :=
  let first := 0 in
  let last := length A in
  if negb (first =? last) && negb (S first =? last) && negb (S (S first) =? last)
  then
    '(_, M) ← for_loop (last - S first) (S first) (level1_body A) (first, M);
    let n := length M + 1 in
    let lowerlogn := lower_log2 n in
    '(_, M) ← for_loop (lowerlogn + 1 - 2) 2 (levels_body A n) (2, M);
    Some M
  else Some M.

(** [translate_sparse_table(i, j, n)] *)
Definition translate_sparse_table (i j n : nat) : nat :=
  if j =? 1 then i
  else wrap ((Z.of_nat j - 1) * Z.of_nat n
             - (Z.of_nat (pow2 j) - Z.of_nat j - 1) + Z.of_nat i).

(** [query_sparse_table(i, j, n, sparse_table)]; [A] is the sequence the
    stored iterators point into. *)
Definition query_sparse_table (A : list nat) (i j n : nat)
    (sparse_table : list nat) : option nat :=
  if negb (i <=? j) then None          (* assert(i <= j) *)
  else if negb (j <? n) then None      (* assert(j < n) *)
  else if i =? j then sparse_table !! i
  else
    let k := lower_log2 (j - i + 1) in
    let x := translate_sparse_table i k n in
    let y := translate_sparse_table
               (wrap (Z.of_nat j - Z.of_nat (pow2 k) + 1)) k n in
    Mx ← sparse_table !! x; My ← sparse_table !! y;
    vx ← A !! Mx; vy ← A !! My;
    Some (if bool_decide (vy < vx) then My else Mx).

(** [index_query_sparse_table(i, j, A, M)] *)
Definition index_query_sparse_table (i j : nat) (A : list nat) (M : table2)
    : option nat :=
  if negb (i <=? j) then None          (* assert(i <= j) *)
  else if i =? j then Some i
  else
    let r := j - i + 1 in
    let k := lower_log2 r in
    x ← read2 M k i; y ← read2 M k (i + (r - 2 * k));
    Mx ← A !! x; My ← A !! y;
    Some (if bool_decide (My < Mx) then y else x).

End general.

Module jwm.

(** [representative_element(first, n, result)]: the values written through
    [result] are collected in order. *)
Definition representative_element_n (first : list nat) (n : nat)
    : option (list nat) :=
  '(_, _, result) ← for_loop n 0 (λ i '(first, seen, result),
       match first with
       | [] => None
       | x :: first' =>
           if decide (x ∈ (seen : gset nat))
           then Some (first', seen, result)
           else Some (first', {[x]} ∪ seen, result ++ [i])
       end) (first, ∅, []);
  Some result.

(** The loop of [representative_element(first, last, result)]: [first] is
    advanced in the body and once more in the loop header. *)
Fixpoint representative_element_loop (first : list nat) (n : nat)
    (seen : gset nat) (result : list nat) : option (list nat) :=
  match first with
  | [] => Some result                       (* first == last *)
  | x :: first1 =>
      let '(seen, result) :=
        if decide (x ∈ seen) then (seen, result)
        else ({[x]} ∪ seen, result ++ [n]) in
      match first1 with                     (* ++first in the body *)
      | [] => None                          (* the header's ++first passes last *)
      | _ :: first2 => representative_element_loop first2 (S n) seen result
      end
  end.

Definition representative_element (first : list nat) : option (list nat) :=
  representative_element_loop first 0 ∅ [].

End jwm.

Module graph_algorithms.
Import general.

(** Modelled from the spec: the graph type, [depth_first_search] and the two
    visitors ([make_eulerian_path], [make_vertex_depth], from a header that is
    not among the sources) are replaced by a rooted tree and the two event
    sequences the spec requires of the traversal: the root first at depth 0,
    an event on entering a vertex and on returning to it after each child
    subtree.  A graph without vertices is [None]. *)
#[warnings="-register-all"]
Inductive tree : Type := Node (v : nat) (children : list tree).

Fixpoint eulerian_path (t : tree) : list nat :=
  match t with
  | Node v children =>
      v :: (fix visit (cs : list tree) : list nat :=
              match cs with
              | [] => []
              | c :: cs' => eulerian_path c ++ v :: visit cs'
              end) children
  end.

Fixpoint vertex_depth (d : nat) (t : tree) : list nat :=
  match t with
  | Node _ children =>
      d :: (fix visit (cs : list tree) : list nat :=
              match cs with
              | [] => []
              | c :: cs' => vertex_depth (S d) c ++ d :: visit cs'
              end) children
  end.

Definition graph : Type := option tree.

Definition dfs_eulerian_path (T : graph) : list nat :=
  match T with None => [] | Some t => eulerian_path t end.

Definition dfs_vertex_depth (T : graph) : list nat :=
  match T with None => [] | Some t => vertex_depth 0 t end.

(** Modelled from the spec: [std::transform] with [element_index] (missing
    header) hands the pairs (E[k], k) to [R] in order; as the comment in
    [lca_preprocess] says, [R] outputs to a map whose insert does not
    replace. *)
Fixpoint transform_element_index (E : list nat) (k : nat) (R : gmap nat nat)
    : gmap nat nat :=
  match E with
  | [] => R
  | v :: E' =>
      transform_element_index E' (S k)
        (match R !! v with Some _ => R | None => <[v := k]> R end)
  end.

(** [std::back_inserter(C)]: every value written through it is one
    [C.push_back]. *)
Definition back_inserter (C : list nat) (written : list nat) : list nat :=
  foldl (λ C v, C ++ [v]) C written.

Section sparse_table_calls.

(** [lca_preprocess] calls [preprocess_sparse_table(L, M)] and [lca_query]
    calls [general::query_sparse_table(i, j, L, M)].  [RMQ.hpp] declares no
    function of these names with these parameters: its
    [preprocess_sparse_table] takes (first, last, M) and its
    [query_sparse_table] takes (first, i, j, n, sparse_table).  The two
    functions called are therefore parameters here, with the parameters the
    calls pass; [Table] is the type of M.  The functions of [RMQ.hpp] that
    take exactly these parameters, and a two-dimensional M as both functions
    assert of [IndexMultiArray], are [index_preprocess_sparse_table] and
    [index_query_sparse_table]. *)
Context {Table : Type}.
Variable preprocess : list nat → Table → option Table.
Variable query : nat → nat → list nat → Table → option nat.

(** [lca_preprocess(T, E, L, R, M)] *)
Definition lca_preprocess (T : graph) (E L : list nat) (R : gmap nat nat)
    (M : Table) : option (list nat * list nat * gmap nat nat * Table) :=
  let E := back_inserter E (dfs_eulerian_path T) in
  let L := back_inserter L (dfs_vertex_depth T) in
  let R := transform_element_index E 0 R in
  M ← preprocess L M;
  Some (E, L, R, M).

(** [lca_query(u, v, E, L, R, M)]; [R[u]] of a vertex without an entry and
    [E[minimum]] outside E have no result. *)
Definition lca_query (u v : nat) (E L : list nat) (R : gmap nat nat)
    (M : Table) : option nat :=
  i ← R !! u; j ← R !! v;
  let '(i, j) := if bool_decide (j < i) then (j, i) else (i, j) in
  minimum ← query i j L M;
  E !! minimum.

End sparse_table_calls.

End graph_algorithms.

Import general.

(** ** Specification vocabulary *)

(** [k] is the leftmost position of a minimum of [A] over the positions
    [lo..hi] (inclusive), all of which lie inside [A]. *)
Definition leftmost_min (A : list nat) (lo hi k : nat) : Prop :=
  lo ≤ k ≤ hi ∧ hi < length A ∧
  ∃ a, A !! k = Some a ∧
       ∀ m b, lo ≤ m ≤ hi → A !! m = Some b → a ≤ b ∧ (b = a → k ≤ m).

(** [k] is the leftmost minimum of the window of length 2^m starting at [i]:
    what the entry of level [m] at position [i] has to be. *)
Definition window_min (A : list nat) (m i k : nat) : Prop :=
  leftmost_min A i (i + 2 ^ m - 1) k.

(** What the 2D builder stores at level [m], position [i]: up to level 32 the
    leftmost minimum of the window of length 2^m; above it,
    [prev_block_length] has been narrowed to 0 and every level repeats the
    windows of level 32. *)
Definition index_entry (A : list nat) (m i k : nat) : Prop :=
  window_min A (m `min` 32) i k.

(** The argmin of two candidate positions, the left one winning ties: the
    expression [A[y] < A[x] ? y : x] both builders and both queries use. *)
Definition argmin (A : list nat) (x y : nat) : option nat :=
  vx ← A !! x; vy ← A !! y; Some (if bool_decide (vy < vx) then y else x).

(** Flat position of the first entry of level [j]: the sizes n - 2^m + 1 of
    the levels m = 1 .. j-1 appended before it, summed. *)
Fixpoint level_start (n j : nat) : nat :=
  match j with
  | 0 => 0
  | S j' => match j' with
            | 0 => 0
            | S _ => level_start n j' + (n - 2 ^ j' + 1)
            end
  end.

(** What a flat table holds while it is being built: the levels below [j] are
    complete, the first [c] entries of level [j] are present, and the entry of
    level [m] at position [i] satisfies [Q m i]. *)
Definition flat_inv (Q : nat → nat → nat → Prop) (n : nat) (M : list nat)
    (j c : nat) : Prop :=
  length M = level_start n j + c ∧
  ∀ m i, (1 ≤ m < j ∧ i + 2 ^ m ≤ n) ∨ (m = j ∧ i < c) →
         ∃ k, M !! (level_start n m + i) = Some k ∧ Q m i k.

(** The same for the 2D table, whose shape never changes. *)
Definition index_inv (Q : nat → nat → nat → Prop) (n : nat) (M0 M : table2)
    (j c : nat) : Prop :=
  length <$> M = length <$> M0 ∧
  ∀ m i, (1 ≤ m < j ∧ i + 2 ^ m ≤ n) ∨ (m = j ∧ i < c) →
         ∃ k, read2 M m i = Some k ∧ Q m i k.

(** The caller's 2D table has room for every valid position of every level
    of a problem of size [n]. *)
Definition well_dimensioned (n : nat) (M : table2) : Prop :=
  ∀ j, 1 ≤ j ≤ lower_log2 n →
       ∃ row, M !! j = Some row ∧ n - 2 ^ j + 1 ≤ length row.

(** Number of entries of a complete flat table for a problem of size [n]. *)
Definition table_size (n : nat) : nat := level_start n (S (lower_log2 n)).


Definition index_query_minimum (A : list nat) (i j : nat) : Prop :=
  ∀ M0, well_dimensioned (length A) M0 →
        ∃ M k, index_preprocess_sparse_table A M0 = Some M
               ∧ index_query_sparse_table i j A M = Some k
               ∧ leftmost_min A i j k.


(** An entry of level [j] at position [i], read through [ent], is the leftmost
    minimum of its window and, from level 2 on, the argmin of the two entries
    of the level below. *)
Definition entry_spec (A : list nat) (ent : nat → nat → option nat)
    (j i : nat) : Prop :=
  ∃ k, ent j i = Some k
       ∧ leftmost_min A i (i + 2 ^ j - 1) k
       ∧ (2 ≤ j → ∃ m1 m2, ent (j - 1) i = Some m1
                           ∧ ent (j - 1) (i + 2 ^ (j - 1)) = Some m2
                           ∧ argmin A m1 m2 = Some k).

(** The tree of the spec's concrete scenario: edges 0→1, 0→2, 1→3, 1→4. *)
Definition scenario_tree : graph_algorithms.tree :=
  graph_algorithms.Node 0
    [graph_algorithms.Node 1 [graph_algorithms.Node 3 []; graph_algorithms.Node 4 []];
     graph_algorithms.Node 2 []].

(** The reference notion the LCA queries are compared with: the path from
    the root to a vertex, the last vertex two such paths share, and the lowest
    common ancestor as the last vertex shared by the two paths from the root. *)
Fixpoint path_to (t : graph_algorithms.tree) (x : nat) : option (list nat) :=
  match t with
  | graph_algorithms.Node v children =>
      if decide (v = x) then Some [v]
      else
        (fix search (cs : list graph_algorithms.tree) : option (list nat) :=
           match cs with
           | [] => None
           | c :: cs' =>
               match path_to c x with
               | Some p => Some (v :: p)
               | None => search cs'
               end
           end) children
  end.

Fixpoint last_common (p q : list nat) (acc : option nat) : option nat :=
  match p, q with
  | a :: p', b :: q' => if decide (a = b) then last_common p' q' (Some a) else acc
  | _, _ => acc
  end.

Definition lca_reference (t : graph_algorithms.tree) (u v : nat) : option nat :=
  p ← path_to t u; q ← path_to t v; last_common p q None.


(** A tree whose tour has 13 entries: edges 0→1, 1→2, 1→6, 2→3, 2→4, 2→5.
    The first occurrences of 3 and 6 in the tour, at the positions 3 and 10,
    span 8 tour entries. *)
Definition long_tour_tree : graph_algorithms.tree :=
  graph_algorithms.Node 0
    [graph_algorithms.Node 1
       [graph_algorithms.Node 2
          [graph_algorithms.Node 3 []; graph_algorithms.Node 4 [];
           graph_algorithms.Node 5 []];
        graph_algorithms.Node 6 []]].

(** The calls of [lca.hpp] completed by name instead of by parameters: the
    functions of [RMQ.hpp] called [preprocess_sparse_table] and
    [query_sparse_table], given what the calls do not pass, the range of L
    for (first, last) and the size of L for n.  M is then a vector of
    iterators into L, and the iterator the query returns is used as the
    position it designates. *)
Definition preprocess_by_name (L M : list nat) : option (list nat) :=
  preprocess_sparse_table L M.

Definition query_by_name (i j : nat) (L M : list nat) : option nat :=
  query_sparse_table L i j (length L) M.

(** A 2D table for 8 elements whose rows hold exactly the valid positions of
    their level: 7, 5 and 1 (row 0 is not used). *)
Definition exact_table_8 : table2 :=
  [[]; replicate 7 0; replicate 5 0; replicate 1 0].

(** Position [k] holds the first occurrence of its element in [E]. *)
Definition first_occurrence (E : list nat) (k : nat) : Prop :=
  ∃ x, E !! k = Some x ∧ ∀ k', k' < k → E !! k' ≠ Some x.

(** [(j, i)] is an entry of the table of a problem of size [n]: a level
    between 1 and ⌊log2 n⌋ and a window of length 2^j that fits. *)
Definition valid_entry (n j i : nat) : Prop :=
  1 ≤ j ≤ lower_log2 n ∧ i + 2 ^ j ≤ n.

(** The elements at the even positions 0, 2, 4, ... of a sequence. *)
Fixpoint evens (l : list nat) : list nat :=
  match l with
  | [] => []
  | x :: rest => x :: match rest with
                      | [] => []
                      | _ :: rest' => evens rest'
                      end
  end.

(** What the 2D builder leaves alone: the shape of the caller's array and
    every cell that is not an entry of the table. *)
Definition index_frame (n : nat) (M0 M : table2) : Prop :=
  length <$> M = length <$> M0 ∧
  ∀ j i, ¬ valid_entry n j i → read2 M j i = read2 M0 j i.

(** Row [j] of the caller's array has at least [c] cells. *)
Definition has_room (M0 : table2) (j c : nat) : Prop :=
  ∃ row, M0 !! j = Some row ∧ c ≤ length row.

(** ** Loop rules *)

Lemma for_loop_total {St : Type} (I : nat → St → Prop) cnt lo
    (body : nat → St → option St) s :
  I lo s →
  (∀ i s, lo ≤ i < lo + cnt → I i s → ∃ s', body i s = Some s' ∧ I (S i) s') →
  ∃ s', for_loop cnt lo body s = Some s' ∧ I (lo + cnt) s'.
Proof.
  revert lo s. induction cnt as [|cnt IH]; intros lo s H0 Hstep; simpl.
  - exists s. by rewrite Nat.add_0_r.
  - destruct (Hstep lo s) as (s1 & -> & H1); [lia | done |]. simpl.
    destruct (IH (S lo) s1) as (s2 & Hs2 & H2); [done | |].
    + intros i s' Hi. apply Hstep. lia.
    + exists s2. split; [done |]. by replace (lo + S cnt) with (S lo + cnt) by lia.
Qed.

Lemma for_loop_partial {St : Type} (I : nat → St → Prop) cnt lo
    (body : nat → St → option St) s s' :
  for_loop cnt lo body s = Some s' →
  I lo s →
  (∀ i s s', lo ≤ i < lo + cnt → I i s → body i s = Some s' → I (S i) s') →
  I (lo + cnt) s'.
Proof.
  revert lo s. induction cnt as [|cnt IH]; intros lo s Hrun H0 Hstep; simpl in *.
  - injection Hrun as <-. by rewrite Nat.add_0_r.
  - destruct (body lo s) as [s1|] eqn:Hb; [|done]. simpl in Hrun.
    replace (lo + S cnt) with (S lo + cnt) by lia.
    apply (IH (S lo) s1); [done | |].
    + apply (Hstep lo s); [lia | done | done].
    + intros i t t' Hi. apply Hstep. lia.
Qed.

(** Values the unit test expects of the binary logarithm. *)
Example lower_log2_test :
  lower_log2 <$> [1; 2; 3; 100; 1000] = [0; 1; 1; 6; 9].
Proof. reflexivity. Qed.

(** ** Leftmost minima *)

Lemma leftmost_min_unique A lo hi k k' :
  leftmost_min A lo hi k → leftmost_min A lo hi k' → k = k'.
Proof.
  intros (Hk & _ & a & Ha & Hmin) (Hk' & _ & a' & Ha' & Hmin').
  destruct (Hmin k' a' Hk' Ha') as [Hle Hl].
  destruct (Hmin' k a Hk Ha) as [Hle' Hl'].
  assert (a = a') as -> by lia. specialize (Hl eq_refl). specialize (Hl' eq_refl). lia.
Qed.

Lemma leftmost_min_valid A lo hi k : leftmost_min A lo hi k → is_Some (A !! k).
Proof. intros (_ & _ & a & Ha & _). by exists a. Qed.

(** Two windows that together cover [lo1..hi2], the second starting no later
    than just after the first ends: the argmin of their leftmost minima is the
    leftmost minimum of the union. *)
Lemma leftmost_min_join A lo1 hi1 lo2 hi2 x y vx vy :
  leftmost_min A lo1 hi1 x → leftmost_min A lo2 hi2 y →
  lo1 ≤ lo2 ≤ hi1 + 1 → hi1 ≤ hi2 →
  A !! x = Some vx → A !! y = Some vy →
  leftmost_min A lo1 hi2 (if bool_decide (vy < vx) then y else x).
Proof.
  intros (Hx & _ & a & Ha & Hminx) (Hy & Hhi & b & Hb & Hminy) Hlo Hhi12 Hvx Hvy.
  rewrite Ha in Hvx. rewrite Hb in Hvy. simplify_eq.
  case_bool_decide as Hlt.
  - split; [lia |]. split; [done |]. exists vy. split; [done |].
    intros m c Hm Hc. destruct (decide (m ≤ hi1)) as [Hin | Hout].
    + destruct (Hminx m c) as [? _]; [lia | done |]. lia.
    + apply Hminy; [lia | done].
  - split; [lia |]. split; [done |]. exists vx. split; [done |].
    intros m c Hm Hc. destruct (decide (m ≤ hi1)) as [Hin | Hout].
    + apply Hminx; [lia | done].
    + destruct (Hminy m c) as [? _]; [lia | done |]. lia.
Qed.

Lemma leftmost_min_pair A i a b :
  A !! i = Some a → A !! (i + 1) = Some b →
  leftmost_min A i (i + 1) (if bool_decide (a ≤ b) then i else i + 1).
Proof.
  intros Ha Hb. pose proof (lookup_lt_Some _ _ _ Hb) as Hlen.
  assert (∀ m c, i ≤ m ≤ i + 1 → A !! m = Some c →
                 (m = i ∧ c = a) ∨ (m = i + 1 ∧ c = b)) as Hcases.
  { intros m c Hm Hc. destruct (decide (m = i)) as [-> | Hne].
    - left. split; [done | congruence].
    - right. assert (m = i + 1) as -> by lia. split; [done | congruence]. }
  case_bool_decide as Hle.
  - split; [lia |]. split; [done |]. exists a. split; [done |].
    intros m c Hm Hc. destruct (Hcases m c Hm Hc) as [[-> ->] | [-> ->]]; lia.
  - split; [lia |]. split; [done |]. exists b. split; [done |].
    intros m c Hm Hc. destruct (Hcases m c Hm Hc) as [[-> ->] | [-> ->]]; lia.
Qed.

Lemma window_min_valid A m i k : window_min A m i k → is_Some (A !! k).
Proof. apply leftmost_min_valid. Qed.

Lemma window_min_level1 A i k : leftmost_min A i (i + 1) k → window_min A 1 i k.
Proof. unfold window_min. simpl. by replace (i + 2 - 1) with (i + 1) by lia. Qed.

(** The recurrence of the builders: the window of level m+1 at [i] is the
    window of level m at [i] followed by the one at [i + 2^m]. *)
Lemma window_min_step A m i x y vx vy :
  window_min A m i x → window_min A m (i + 2 ^ m) y →
  A !! x = Some vx → A !! y = Some vy →
  window_min A (S m) i (if bool_decide (vy < vx) then y else x).
Proof.
  unfold window_min. intros Hx Hy Hvx Hvy.
  assert (2 ^ S m = 2 ^ m + 2 ^ m) as Hp by (simpl; lia).
  assert (0 < 2 ^ m) as Hpos by (apply Nat.neq_0_lt_0, Nat.pow_nonzero; lia).
  replace (i + 2 ^ S m - 1) with (i + 2 ^ m + 2 ^ m - 1) by lia.
  eapply leftmost_min_join; eauto; lia.
Qed.

(** ** Offsets of the flat layout *)

Lemma pow2_gt j : j < 2 ^ j.
Proof. apply Nat.pow_gt_lin_r. lia. Qed.

Lemma level_start_succ n j :
  1 ≤ j → level_start n (S j) = level_start n j + (n - 2 ^ j + 1).
Proof. destruct j; [lia | done]. Qed.

Lemma level_start_closed n j :
  1 ≤ j → 2 ^ j ≤ n →
  level_start n j + (2 ^ j - j - 1) = (j - 1) * n.
Proof.
  induction j as [|j IH]; [lia |]. intros _ Hn.
  destruct (decide (j = 0)) as [-> | Hj]; [simpl; lia |].
  rewrite level_start_succ by lia.
  assert (2 ^ S j = 2 * 2 ^ j) as Hp by (simpl; lia).
  pose proof (pow2_gt j). pose proof (pow2_gt (S j)).
  specialize (IH ltac:(lia) ltac:(lia)).
  replace (S j - 1) with (S (j - 1)) by lia. simpl Nat.mul. lia.
Qed.

Lemma wrap_small (m : nat) : (Z.of_nat m < 2 ^ 64)%Z → wrap (Z.of_nat m) = m.
Proof.
  intros Hm. unfold wrap. rewrite Z.mod_small by lia. apply Nat2Z.id.
Qed.

(** Inside a table that fits the address space, the closed form of
    [translate_sparse_table] is the start of the level plus the position. *)
Lemma translate_level_start i j n :
  1 ≤ j → 2 ^ j ≤ n → (Z.of_nat (level_start n j + i) < 2 ^ 64)%Z →
  translate_sparse_table i j n = level_start n j + i.
Proof.
  intros Hj Hn Hfit. unfold translate_sparse_table, pow2.
  destruct (Nat.eqb_spec j 1) as [-> | Hne]; [done |].
  pose proof (level_start_closed n j Hj Hn) as Hc.
  pose proof (pow2_gt j) as Hg.
  rewrite <- (wrap_small (level_start n j + i)) by done. f_equal.
  assert (Z.of_nat ((j - 1) * n) = (Z.of_nat j - 1) * Z.of_nat n)%Z as Hmul.
  { rewrite Nat2Z.inj_mul. f_equal. lia. }
  rewrite <- Hmul, <- Hc. lia.
Qed.

(** ** The flat builder, level by level *)

Section flat_levels.
Variable A : list nat.
Variable Q : nat → nat → nat → Prop.
Variable n : nat.
Hypothesis Q_valid : ∀ m i k, Q m i k → is_Some (A !! k).
Hypothesis Q_step : ∀ m i x y vx vy,
  1 ≤ m → i + 2 ^ S m ≤ n → Q m i x → Q m (i + 2 ^ m) y →
  A !! x = Some vx → A !! y = Some vy →
  Q (S m) i (if bool_decide (vy < vx) then y else x).

Lemma flat_inv_next_level M j :
  1 ≤ j → 2 ^ j ≤ n → flat_inv Q n M j (n - 2 ^ j + 1) → flat_inv Q n M (S j) 0.
Proof.
  intros Hj Hn [Hlen Hent]. split.
  - rewrite level_start_succ by done. lia.
  - intros m i Hmi. apply Hent.
    destruct Hmi as [[Hm Hi] | [_ Hi]]; [|lia].
    destruct (decide (m = j)) as [-> | Hne]; [right | left]; lia.
Qed.

Lemma level_body_step m M i :
  1 ≤ m → i + 2 ^ S m ≤ n → flat_inv Q n M (S m) i →
  ∃ k, level_body A (2 ^ m) i (level_start n m + i, M)
       = Some (level_start n m + S i, M ++ [k])
       ∧ flat_inv Q n (M ++ [k]) (S m) (S i).
Proof.
  intros Hm Hi [Hlen Hent].
  assert (2 ^ S m = 2 ^ m + 2 ^ m) as Hp by (simpl; lia).
  destruct (Hent m i) as (x & Hx & HQx); [left; lia |].
  destruct (Hent m (i + 2 ^ m)) as (y & Hy & HQy); [left; lia |].
  destruct (Q_valid _ _ _ HQx) as [vx Hvx].
  destruct (Q_valid _ _ _ HQy) as [vy Hvy].
  exists (if bool_decide (vy < vx) then y else x). split.
  - unfold level_body. rewrite Hx. simpl.
    replace (level_start n m + i + 2 ^ m) with (level_start n m + (i + 2 ^ m)) by lia.
    rewrite Hy. simpl. rewrite Hvx. simpl. rewrite Hvy. simpl.
    do 2 f_equal. lia.
  - split; [rewrite length_app; simpl length; lia |].
    intros m' i' Hmi'.
    destruct (decide (m' = S m ∧ i' = i)) as [[-> ->] | Hold].
    + exists (if bool_decide (vy < vx) then y else x). split.
      * rewrite <- Hlen. by rewrite list_lookup_middle.
      * by apply (Q_step m i x y vx vy).
    + destruct (Hent m' i') as (k & Hk & HQk); [destruct Hmi'; [left|right]; lia |].
      exists k. split; [|done]. by apply lookup_app_l_Some.
Qed.

Lemma level_loop m M :
  1 ≤ m → 2 ^ S m ≤ n → flat_inv Q n M (S m) 0 →
  ∃ Mi' M', for_loop (n - 2 ^ S m + 1) 0 (level_body A (2 ^ m))
              (level_start n m, M) = Some (Mi', M')
            ∧ flat_inv Q n M' (S (S m)) 0 ∧ M `prefix_of` M'.
Proof.
  intros Hm Hn Hinv.
  destruct (for_loop_total
    (λ i (s : nat * list nat), s.1 = level_start n m + i
                               ∧ flat_inv Q n s.2 (S m) i ∧ M `prefix_of` s.2)
    (n - 2 ^ S m + 1) 0 (level_body A (2 ^ m)) (level_start n m, M))
    as ([Mi' M'] & Hrun & HMi & Hinv' & Hpre).
  - cbn [fst snd]. split; [lia |]. split; [done |]. reflexivity.
  - intros i [Mi M1] Hi (HMi & Hinv1 & Hpre). cbn [fst snd] in *. subst Mi.
    destruct (level_body_step m M1 i) as (k & Hk & Hinv2); [done | lia | done |].
    eexists. split; [exact Hk |]. cbn [fst snd]. split; [lia |]. split; [done |].
    etrans; [exact Hpre |]. by apply prefix_app_r.
  - exists Mi', M'. split; [done |]. split; [|done].
    apply flat_inv_next_level; [lia | lia | done].
Qed.

Lemma levels_body_step m M :
  1 ≤ m → 2 ^ S m ≤ n → flat_inv Q n M (S m) 0 →
  ∃ M', levels_body A n (S m) (2 ^ m, M) = Some (2 ^ S m, M')
        ∧ flat_inv Q n M' (S (S m)) 0 ∧ M `prefix_of` M'.
Proof.
  intros Hm Hn Hinv.
  destruct (level_loop m M Hm Hn Hinv) as (Mi' & M' & Hrun & Hinv' & Hpre).
  exists M'. split; [|done].
  assert (2 ^ S m = 2 * 2 ^ m) as Hp by (simpl; lia).
  destruct Hinv as [Hlen _]. rewrite level_start_succ in Hlen by done.
  assert (2 ^ m ≤ n) by lia.
  unfold levels_body. rewrite <- Hp.
  replace (length M - (n - 2 ^ m + 1)) with (level_start n m) by lia.
  rewrite Hrun. done.
Qed.

Lemma levels_loop M :
  2 ≤ n → flat_inv Q n M 2 0 →
  ∃ bl M', for_loop (lower_log2 n + 1 - 2) 2 (levels_body A n) (2, M)
           = Some (bl, M')
           ∧ flat_inv Q n M' (S (lower_log2 n)) 0 ∧ M `prefix_of` M'.
Proof.
  intros Hn Hinv. unfold lower_log2.
  assert (1 ≤ Nat.log2 n) as Hlog by (apply Nat.log2_le_pow2; simpl; lia).
  pose proof (Nat.log2_spec n ltac:(lia)) as [Hlo _].
  destruct (for_loop_total
    (λ j (s : nat * list nat), s.1 = 2 ^ (j - 1)
                               ∧ flat_inv Q n s.2 j 0 ∧ M `prefix_of` s.2)
    (Nat.log2 n + 1 - 2) 2 (levels_body A n) (2, M))
    as ([bl M'] & Hrun & _ & Hinv' & Hpre).
  - cbn [fst snd]. split; [done |]. split; [done |]. reflexivity.
  - intros j [bl2 M1] Hj (Hbl & Hinv1 & Hpre). cbn [fst snd] in *. subst bl2.
    destruct j as [|m]; [lia |]. replace (S m - 1) with m by lia.
    assert (2 ^ S m ≤ n) as Hpow.
    { etrans; [|exact Hlo]. apply Nat.pow_le_mono_r; lia. }
    destruct (levels_body_step m M1) as (M2 & Hb & Hinv2 & Hpre2); [lia | done | done |].
    eexists. split; [exact Hb |]. cbn [fst snd].
    replace (S (S m) - 1) with (S m) by lia. split; [done |]. split; [done |].
    by etrans.
  - exists bl, M'. split; [done |]. split; [|done].
    by replace (S (Nat.log2 n)) with (2 + (Nat.log2 n + 1 - 2)) by lia.
Qed.
End flat_levels.

(** ** The flat builder as a whole *)

Lemma level1_loop A M :
  2 ≤ length A →
  ∃ first' L1,
    for_loop (length A - 1) 1 (level1_body A) (0, M) = Some (first', M ++ L1)
    ∧ length L1 = length A - 1
    ∧ ∀ i, i + 2 ≤ length A → ∃ k, L1 !! i = Some k ∧ leftmost_min A i (i + 1) k.
Proof.
  intros Hlen.
  destruct (for_loop_total
    (λ second (s : nat * list nat),
       s.1 = second - 1 ∧
       ∃ L1, s.2 = M ++ L1 ∧ length L1 = second - 1 ∧
             ∀ i, i + 1 < second → ∃ k, L1 !! i = Some k ∧ leftmost_min A i (i + 1) k)
    (length A - 1) 1 (level1_body A) (0, M))
    as ([first' M'] & Hrun & _ & L1 & HM' & HL1 & Hent).
  - cbn [fst snd]. split; [done |]. exists []. rewrite app_nil_r.
    split; [done |]. split; [done |]. intros i Hi. lia.
  - intros second [first M1] Hs HI. cbn [fst snd] in HI.
    destruct HI as (-> & L1 & -> & HL1 & Hent).
    destruct second as [|f]; [lia |].
    replace (S f - 1) with f in * by lia.
    destruct (lookup_lt_is_Some_2 A f) as [a Ha]; [lia |].
    destruct (lookup_lt_is_Some_2 A (S f)) as [b Hb]; [lia |].
    exists (S f, (M ++ L1) ++ [if bool_decide (a ≤ b) then f else S f]). split.
    { unfold level1_body. rewrite Ha. simpl. rewrite Hb. done. }
    cbn [fst snd]. split; [lia |].
    exists (L1 ++ [if bool_decide (a ≤ b) then f else S f]).
    split; [by rewrite app_assoc |]. split; [rewrite length_app; simpl length; lia |].
    intros i Hi. destruct (decide (i = f)) as [-> | Hne].
    + exists (if bool_decide (a ≤ b) then f else S f). split.
      * subst f. by rewrite list_lookup_middle.
      * pose proof (leftmost_min_pair A f a b Ha) as Hp.
        rewrite Nat.add_1_r in *. by apply Hp.
    + destruct (Hent i) as (k & Hk & Hmin); [lia |].
      exists k. split; [by apply lookup_app_l_Some | done].
  - cbn [fst snd] in *. subst M'. exists first', L1. split; [done |].
    split; [lia |]. intros i Hi. apply Hent. lia.
Qed.

Lemma preprocess_sparse_table_guard (A : list nat) :
  negb (0 =? length A) && negb (1 =? length A) && negb (2 =? length A)
  = bool_decide (3 ≤ length A).
Proof.
  by destruct (length A) as [|[|[|l]]].
Qed.

(** The builder run on any table [M] whose stored iterators can be
    dereferenced: it returns [M] followed by new entries, and the result is a
    complete table for the size [length M + length A] the builder computes,
    with [M] in front of the level-1 entries. *)
Lemma preprocess_sparse_table_inv A M (Q : nat → nat → nat → Prop) :
  let n := length M + length A in
  (∀ m i k, Q m i k → is_Some (A !! k)) →
  (∀ m i x y vx vy,
      1 ≤ m → i + 2 ^ S m ≤ n → Q m i x → Q m (i + 2 ^ m) y →
      A !! x = Some vx → A !! y = Some vy →
      Q (S m) i (if bool_decide (vy < vx) then y else x)) →
  3 ≤ length A →
  (∀ i k, M !! i = Some k → Q 1 i k) →
  (∀ i k, leftmost_min A i (i + 1) k → Q 1 (length M + i) k) →
  ∃ new, preprocess_sparse_table A M = Some (M ++ new)
         ∧ flat_inv Q n (M ++ new) (S (lower_log2 n)) 0.
Proof.
  intros n Q_valid Q_step Hlen HQM HQA.
  destruct (level1_loop A M) as (first' & L1 & Hrun1 & HL1 & Hent1); [lia |].
  assert (flat_inv Q n (M ++ L1) 2 0) as Hinv.
  { split.
    - rewrite length_app. subst n. simpl. lia.
    - intros m i [[Hm Hi] | [_ Hi]]; [|lia].
      assert (m = 1) as -> by lia. simpl in Hi. simpl level_start.
      destruct (decide (i < length M)) as [Hin | Hout].
      + destruct (lookup_lt_is_Some_2 M i Hin) as [k Hk].
        exists k. split; [by apply lookup_app_l_Some | by apply HQM].
      + destruct (Hent1 (i - length M)) as (k & Hk & Hmin); [subst n; lia |].
        exists k. split.
        * rewrite lookup_app_r by lia. done.
        * replace i with (length M + (i - length M)) by lia. by apply HQA. }
  destruct (levels_loop A Q n Q_valid Q_step (M ++ L1)) as (bl & M' & Hrun & Hinv' & [new ->]);
    [subst n; lia | done |].
  exists (L1 ++ new). rewrite app_assoc. split; [|done].
  unfold preprocess_sparse_table.
  rewrite preprocess_sparse_table_guard, bool_decide_eq_true_2 by done.
  replace (length A - 1) with (length A - 1) by done.
  rewrite Hrun1. cbn [mbind option_bind].
  replace (length (M ++ L1) + 1) with n by (rewrite length_app; subst n; lia).
  rewrite Hrun. done.
Qed.

(** Built from an empty table over at least three elements, every entry of
    every level is the leftmost minimum of its window. *)
Lemma preprocess_sparse_table_correct A :
  3 ≤ length A →
  ∃ T, preprocess_sparse_table A [] = Some T
       ∧ flat_inv (window_min A) (length A) T (S (lower_log2 (length A))) 0.
Proof.
  intros Hlen.
  destruct (preprocess_sparse_table_inv A [] (window_min A))
    as (new & Hrun & Hinv); simpl length.
  - apply window_min_valid.
  - intros m i x y vx vy _ _. apply window_min_step.
  - done.
  - intros i k Hk. by rewrite lookup_nil in Hk.
  - intros i k. apply window_min_level1.
  - exists new. done.
Qed.

(** ** The 2D builder *)

Lemma read2_write2 M M' j i v j' i' :
  write2 M j i v = Some M' →
  read2 M' j' i' = if decide (j' = j ∧ i' = i) then Some v else read2 M j' i'.
Proof.
  unfold write2, read2. intros Hw.
  destruct (M !! j) as [row|] eqn:Hrow; [|done]. simpl in Hw.
  case_decide as Hi; [|done]. injection Hw as <-.
  pose proof (lookup_lt_Some _ _ _ Hrow) as Hj.
  destruct (decide (j' = j)) as [-> | Hne].
  - rewrite list_lookup_insert_eq by done. simpl.
    destruct (decide (i' = i)) as [-> | Hne'].
    + rewrite list_lookup_insert_eq by done. by rewrite decide_True.
    + rewrite list_lookup_insert_ne by done. rewrite decide_False by tauto.
      by rewrite Hrow.
  - rewrite list_lookup_insert_ne by done. by rewrite decide_False by tauto.
Qed.

Lemma write2_shape M M' j i v :
  write2 M j i v = Some M' → length <$> M' = length <$> M.
Proof.
  unfold write2. intros Hw.
  destruct (M !! j) as [row|] eqn:Hrow; [|done]. simpl in Hw.
  case_decide as Hi; [|done]. injection Hw as <-.
  rewrite list_fmap_insert, length_insert.
  apply list_insert_id. by rewrite list_lookup_fmap, Hrow.
Qed.

Lemma write2_total M0 M n j i v :
  well_dimensioned n M0 → length <$> M = length <$> M0 →
  1 ≤ j ≤ lower_log2 n → i + 2 ^ j ≤ n →
  is_Some (write2 M j i v).
Proof.
  intros Hdim Hshape Hj Hi. destruct (Hdim j Hj) as (row0 & Hrow0 & Hlen0).
  assert ((length <$> M) !! j = Some (length row0)) as Hl.
  { by rewrite Hshape, list_lookup_fmap, Hrow0. }
  rewrite list_lookup_fmap in Hl.
  destruct (M !! j) as [row|] eqn:Hrow; [|done]. simpl in Hl.
  unfold write2. rewrite Hrow. simpl.
  rewrite decide_True; [done |]. injection Hl as ->. lia.
Qed.

Lemma index_entry_low A m i k :
  m ≤ 32 → index_entry A m i k ↔ window_min A m i k.
Proof. intros Hm. unfold index_entry. by rewrite Nat.min_l by done. Qed.

Lemma index_entry_valid A m i k : index_entry A m i k → is_Some (A !! k).
Proof. apply window_min_valid. Qed.

(** [prev_block_length] after the level whose block length is 2^m. *)
Lemma narrow_pow2 m :
  wrap32 (Z.of_nat (2 ^ m)) = if decide (m < 32) then 2 ^ m else 0.
Proof.
  unfold wrap32. rewrite Nat2Z.inj_pow. change (Z.of_nat 2) with 2%Z.
  destruct (decide (m < 32)) as [Hlow | Hhigh].
  - rewrite Z.mod_small.
    + change 2%Z with (Z.of_nat 2). by rewrite <- Nat2Z.inj_pow, Nat2Z.id.
    + split; [apply Z.pow_nonneg; lia | apply Z.pow_lt_mono_r; lia].
  - replace (Z.of_nat m) with (Z.of_nat (m - 32) + 32)%Z by lia.
    rewrite Z.pow_add_r by lia. by rewrite Z.mod_mul.
Qed.

Section index_levels.
Variable A : list nat.
Variable n : nat.
Variable M0 : table2.
Hypothesis M0_dim : well_dimensioned n M0.

Lemma index_inv_write M M' j k c :
  index_inv (index_entry A) n M0 M j c →
  write2 M j c k = Some M' → index_entry A j c k →
  index_inv (index_entry A) n M0 M' j (S c).
Proof.
  intros [Hshape Hent] Hw HQ. split.
  - by rewrite (write2_shape _ _ _ _ _ Hw).
  - intros m i' Hmi. rewrite (read2_write2 _ _ _ _ _ _ _ Hw).
    case_decide as Heq.
    + destruct Heq as [-> ->]. by exists k.
    + apply Hent. destruct Hmi; [left | right]; lia.
Qed.

Lemma index_inv_next_level M j :
  1 ≤ j → 2 ^ j ≤ n →
  index_inv (index_entry A) n M0 M j (n - 2 ^ j + 1) →
  index_inv (index_entry A) n M0 M (S j) 0.
Proof.
  intros Hj Hn [Hshape Hent]. split; [done |].
  intros m i Hmi. apply Hent.
  destruct Hmi as [[Hm Hi] | [_ Hi]]; [|lia].
  destruct (decide (m = j)) as [-> | Hne]; [right | left]; lia.
Qed.

Lemma index_level1_loop :
  2 ≤ n → n = length A →
  ∃ M, for_loop (length A - 1) 0 (index_level1_body A 1) M0 = Some M
       ∧ index_inv (index_entry A) n M0 M 2 0.
Proof.
  intros Hn HnA.
  assert (1 ≤ lower_log2 n) as Hlog by (apply Nat.log2_le_pow2; simpl; lia).
  destruct (for_loop_total (λ i M, index_inv (index_entry A) n M0 M 1 i)
              (length A - 1) 0 (index_level1_body A 1) M0) as (M & Hrun & Hinv).
  - split; [done |]. intros m i Hmi. lia.
  - intros i M Hi Hinv.
    destruct (lookup_lt_is_Some_2 A i) as [a Ha]; [lia |].
    destruct (lookup_lt_is_Some_2 A (i + 1)) as [b Hb]; [lia |].
    destruct (write2_total M0 M n 1 i (if bool_decide (a ≤ b) then i else i + 1))
      as [M' HM']; [done | apply Hinv | lia | simpl; lia |].
    exists M'. split.
    + unfold index_level1_body. rewrite Ha. simpl. rewrite Hb. done.
    + eapply index_inv_write; [done | done |].
      apply index_entry_low; [lia |].
      by apply window_min_level1, leftmost_min_pair.
  - exists M. split; [done |]. apply index_inv_next_level; [lia | simpl; lia |].
    simpl in *. by replace (n - 2 + 1) with (length A - 1) by lia.
Qed.

Lemma index_level_loop m M :
  1 ≤ m → 2 ^ S m ≤ n → S m ≤ lower_log2 n →
  index_inv (index_entry A) n M0 M (S m) 0 →
  ∃ M', for_loop (n - 2 ^ S m + 1) 0
          (index_level_body A (S m) (wrap32 (Z.of_nat (2 ^ m)))) M = Some M'
        ∧ index_inv (index_entry A) n M0 M' (S (S m)) 0.
Proof.
  intros Hm Hn Hlog Hinv.
  assert (2 ^ S m = 2 ^ m + 2 ^ m) as Hp by (simpl; lia).
  destruct (for_loop_total (λ i M, index_inv (index_entry A) n M0 M (S m) i)
              (n - 2 ^ S m + 1) 0
              (index_level_body A (S m) (wrap32 (Z.of_nat (2 ^ m)))) M)
    as (M' & Hrun & Hinv'); [done | |].
  - intros i M1 Hi Hinv1. pose proof Hinv1 as [Hshape Hent].
    destruct (Hent m i) as (x & Hx & HQx); [left; lia |].
    destruct (index_entry_valid _ _ _ _ HQx) as [vx Hvx].
    rewrite narrow_pow2. destruct (decide (m < 32)) as [Hlow | Hhigh].
    + destruct (Hent m (i + 2 ^ m)) as (y & Hy & HQy); [left; lia |].
      destruct (index_entry_valid _ _ _ _ HQy) as [vy Hvy].
      destruct (write2_total M0 M1 n (S m) i (if bool_decide (vy < vx) then y else x))
        as [M2 HM2]; [done | done | lia | lia |].
      exists M2. split.
      * unfold index_level_body. replace (S m - 1) with m by lia.
        rewrite Hx. simpl. rewrite Hy. simpl. rewrite Hvx. simpl. rewrite Hvy. done.
      * eapply index_inv_write; [done | done |].
        apply index_entry_low; [lia |].
        pose proof (proj1 (index_entry_low A m i x ltac:(lia)) HQx) as HWx.
        pose proof (proj1 (index_entry_low A m (i + 2 ^ m) y ltac:(lia)) HQy) as HWy.
        by eapply window_min_step.
    + destruct (write2_total M0 M1 n (S m) i x) as [M2 HM2]; [done | done | lia | lia |].
      exists M2. split.
      * unfold index_level_body. replace (S m - 1) with m by lia.
        rewrite Nat.add_0_r, Hx. cbn [mbind option_bind]. rewrite Hvx.
        cbn [mbind option_bind]. by rewrite bool_decide_eq_false_2 by lia.
      * eapply index_inv_write; [done | done |].
        unfold index_entry in *. by replace (S m `min` 32) with (m `min` 32) by lia.
  - exists M'. split; [done |]. apply index_inv_next_level; [lia | done | done].
Qed.

Lemma index_levels_loop M :
  2 ≤ n → index_inv (index_entry A) n M0 M 2 0 →
  ∃ bl M', for_loop (lower_log2 n + 1 - 2) 2 (index_levels_body A n) (2, M)
           = Some (bl, M')
           ∧ index_inv (index_entry A) n M0 M' (S (lower_log2 n)) 0.
Proof.
  intros Hn Hinv.
  assert (1 ≤ lower_log2 n) as Hlog by (apply Nat.log2_le_pow2; simpl; lia).
  pose proof (Nat.log2_spec n ltac:(lia)) as [Hlo _].
  destruct (for_loop_total
    (λ j (s : nat * table2), s.1 = wrap32 (Z.of_nat (2 ^ (j - 1)))
                             ∧ index_inv (index_entry A) n M0 s.2 j 0)
    (lower_log2 n + 1 - 2) 2 (index_levels_body A n) (2, M))
    as ([bl M'] & Hrun & _ & Hinv').
  - cbn [fst snd]. split; [reflexivity | done].
  - intros j [bl2 M1] Hj HI. cbn [fst snd] in HI. destruct HI as [-> Hinv1].
    destruct j as [|m]; [lia |]. replace (S m - 1) with m by lia.
    assert (2 ^ S m ≤ n) as Hpow.
    { etrans; [|exact Hlo]. apply Nat.pow_le_mono_r; unfold lower_log2 in *; lia. }
    destruct (index_level_loop m M1) as (M2 & Hb & Hinv2); [lia | done | lia | done |].
    exists (wrap32 (Z.of_nat (2 ^ S m)), M2). split.
    + unfold index_levels_body, pow2. rewrite Hb. done.
    + cbn [fst snd]. by replace (S (S m) - 1) with (S m) by lia.
  - exists bl, M'. split; [done |]. cbn [fst snd] in Hinv'.
    by replace (S (lower_log2 n)) with (2 + (lower_log2 n + 1 - 2)) by lia.
Qed.
End index_levels.

Lemma index_preprocess_sparse_table_correct A M0 :
  3 ≤ length A → well_dimensioned (length A) M0 →
  ∃ M, index_preprocess_sparse_table A M0 = Some M
       ∧ index_inv (index_entry A) (length A) M0 M (S (lower_log2 (length A))) 0.
Proof.
  intros Hlen Hdim.
  destruct (index_level1_loop A (length A) M0 Hdim) as (M1 & Hrun1 & Hinv1); [lia | done |].
  destruct (index_levels_loop A (length A) M0 Hdim M1) as (bl & M & Hrun & Hinv); [lia | done |].
  exists M. split; [|done].
  unfold index_preprocess_sparse_table. rewrite decide_True by lia.
  cbn zeta. rewrite Hrun1. cbn [mbind option_bind]. rewrite Hrun. done.
Qed.

(** ** The queries on a built table *)

(** The level chosen by a query of more than one element, and the two
    windows of that level that cover the range. *)
Lemma query_level i j n :
  i < j < n →
  let k := lower_log2 (j - i + 1) in
  1 ≤ k ≤ lower_log2 n ∧ 2 ^ k ≤ j - i + 1 < 2 ^ S k ∧ 2 ^ k ≤ n.
Proof.
  intros Hij k. unfold lower_log2 in *.
  destruct (Nat.log2_spec (j - i + 1)) as [Hlo Hhi]; [lia |].
  assert (1 ≤ k) by (apply Nat.log2_le_pow2; simpl; lia).
  assert (k ≤ Nat.log2 n) by (apply Nat.log2_le_mono; lia).
  subst k. repeat split; try done. lia.
Qed.

Lemma covering_windows A i j k x y vx vy :
  i < j → 2 ^ k ≤ j - i + 1 < 2 ^ S k →
  window_min A k i x → window_min A k (j + 1 - 2 ^ k) y →
  A !! x = Some vx → A !! y = Some vy →
  leftmost_min A i j (if bool_decide (vy < vx) then y else x).
Proof.
  unfold window_min. intros Hij [Hlo Hhi] Hx Hy Hvx Hvy.
  assert (2 ^ S k = 2 ^ k + 2 ^ k) as Hp by (simpl; lia).
  assert (0 < 2 ^ k) as Hpos by (apply Nat.neq_0_lt_0, Nat.pow_nonzero; lia).
  replace (j + 1 - 2 ^ k + 2 ^ k - 1) with j in Hy by lia.
  eapply leftmost_min_join; eauto; lia.
Qed.

(** The start of the second window, [j - pow2(k) + 1], passes through a
    wrapped intermediate value when the window starts at 0. *)
Lemma second_window_start j k :
  2 ^ k ≤ j + 1 → (Z.of_nat j < 2 ^ 64)%Z →
  wrap (Z.of_nat j - Z.of_nat (2 ^ k) + 1) = j + 1 - 2 ^ k.
Proof.
  intros Hk Hj.
  assert (0 < 2 ^ k) as Hpos by (apply Nat.neq_0_lt_0, Nat.pow_nonzero; lia).
  rewrite <- (wrap_small (j + 1 - 2 ^ k)) by lia. f_equal. lia.
Qed.

Lemma query_sparse_table_correct A T i j :
  flat_inv (window_min A) (length A) T (S (lower_log2 (length A))) 0 →
  (Z.of_nat (length T) < 2 ^ 64)%Z →
  i < j < length A →
  ∃ k, query_sparse_table A i j (length A) T = Some k ∧ leftmost_min A i j k.
Proof.
  intros [HlenT Hent] Hfit Hij.
  destruct (query_level i j (length A) Hij) as (Hk & Hr & Hn).
  set (k := lower_log2 (j - i + 1)) in *.
  destruct (Hent k i) as (x & Hx & HQx); [left; lia |].
  destruct (Hent k (j + 1 - 2 ^ k)) as (y & Hy & HQy); [left; lia |].
  destruct (window_min_valid _ _ _ _ HQx) as [vx Hvx].
  destruct (window_min_valid _ _ _ _ HQy) as [vy Hvy].
  pose proof (lookup_lt_Some _ _ _ Hx) as Hxlt.
  pose proof (lookup_lt_Some _ _ _ Hy) as Hylt.
  assert (length A ≤ S (length T)) as HnT.
  { destruct (Hent 1 (length A - 2)) as (z & Hz & _); [left; simpl; lia |].
    apply lookup_lt_Some in Hz. simpl in Hz. lia. }
  exists (if bool_decide (vy < vx) then y else x). split.
  - unfold query_sparse_table, pow2. fold k.
    rewrite (proj2 (Nat.leb_le i j)) by lia.
    rewrite (proj2 (Nat.ltb_lt j (length A))) by lia.
    rewrite (proj2 (Nat.eqb_neq i j)) by lia. cbn [negb].
    rewrite second_window_start by lia.
    rewrite !translate_level_start by lia.
    rewrite Hx. simpl. rewrite Hy. simpl. rewrite Hvx. simpl. rewrite Hvy. done.
  - eapply covering_windows; eauto; lia.
Qed.


(** On ranges of fewer than 8 elements [2 * k] and [2^k] coincide, and the
    second window read by the 2D query is the one that ends at [j]. *)
Lemma index_query_sparse_table_correct A M0 M i j :
  index_inv (index_entry A) (length A) M0 M (S (lower_log2 (length A))) 0 →
  i < j < length A → j - i + 1 < 8 →
  ∃ k, index_query_sparse_table i j A M = Some k ∧ leftmost_min A i j k.
Proof.
  intros [_ Hent] Hij Hshort.
  destruct (query_level i j (length A) Hij) as (Hk & Hr & Hn).
  set (k := lower_log2 (j - i + 1)) in *.
  assert (k < 3) as Hk3.
  { apply (Nat.pow_lt_mono_r_iff 2); [lia |]. simpl. lia. }
  assert (2 * k = 2 ^ k) as H2k.
  { destruct k as [|[|[|k']]]; simpl; lia. }
  destruct (Hent k i) as (x & Hx & HQx); [left; lia |].
  destruct (Hent k (j + 1 - 2 ^ k)) as (y & Hy & HQy); [left; lia |].
  apply (index_entry_low A k) in HQx; [|lia].
  apply (index_entry_low A k) in HQy; [|lia].
  destruct (window_min_valid _ _ _ _ HQx) as [vx Hvx].
  destruct (window_min_valid _ _ _ _ HQy) as [vy Hvy].
  exists (if bool_decide (vy < vx) then y else x). split.
  - unfold index_query_sparse_table. fold k.
    rewrite (proj2 (Nat.leb_le i j)) by lia.
    rewrite (proj2 (Nat.eqb_neq i j)) by lia. cbn [negb].
    rewrite H2k.
    replace (i + (j - i + 1 - 2 ^ k)) with (j + 1 - 2 ^ k) by lia.
    rewrite Hx. simpl. rewrite Hy. simpl. rewrite Hvx. simpl. rewrite Hvy. done.
  - eapply covering_windows; eauto; lia.
Qed.

(** ** Entries and the recurrence between levels *)

Lemma entries_recurrence A n L (ent : nat → nat → option nat) :
  (∀ m i, 1 ≤ m ≤ L → i + 2 ^ m ≤ n → ∃ k, ent m i = Some k ∧ window_min A m i k) →
  ∀ j i, 1 ≤ j ≤ L → i + 2 ^ j ≤ n → entry_spec A ent j i.
Proof.
  intros Hent j i Hj Hi.
  destruct (Hent j i Hj Hi) as (k & Hk & HQk).
  exists k. split; [done |]. split; [done |]. intros Hj2.
  destruct j as [|m]; [lia |]. replace (S m - 1) with m by lia.
  assert (2 ^ S m = 2 ^ m + 2 ^ m) as Hp by (simpl; lia).
  destruct (Hent m i) as (m1 & Hm1 & HQ1); [lia | lia |].
  destruct (Hent m (i + 2 ^ m)) as (m2 & Hm2 & HQ2); [lia | lia |].
  destruct (window_min_valid _ _ _ _ HQ1) as [v1 Hv1].
  destruct (window_min_valid _ _ _ _ HQ2) as [v2 Hv2].
  exists m1, m2. split; [done |]. split; [done |].
  unfold argmin. rewrite Hv1. simpl. rewrite Hv2. simpl. f_equal.
  eapply leftmost_min_unique; [|exact HQk].
  by apply (window_min_step A m i m1 m2 v1 v2).
Qed.

Lemma flat_inv_length Q n T : flat_inv Q n T (S (lower_log2 n)) 0 → length T = table_size n.
Proof. intros [Hlen _]. unfold table_size. lia. Qed.

Lemma flat_entries A T :
  flat_inv (window_min A) (length A) T (S (lower_log2 (length A))) 0 →
  (Z.of_nat (length T) < 2 ^ 64)%Z →
  ∀ m i, 1 ≤ m ≤ lower_log2 (length A) → i + 2 ^ m ≤ length A →
         ∃ k, T !! translate_sparse_table i m (length A) = Some k ∧ window_min A m i k.
Proof.
  intros [HlenT Hent] Hfit m i Hm Hi.
  destruct (Hent m i) as (k & Hk & HQ); [left; lia |].
  exists k. split; [|done].
  pose proof (lookup_lt_Some _ _ _ Hk). rewrite translate_level_start; [done | lia | | lia].
  assert (0 < 2 ^ m) by (apply Nat.neq_0_lt_0, Nat.pow_nonzero; lia). lia.
Qed.

Lemma index_entries A M0 M :
  index_inv (index_entry A) (length A) M0 M (S (lower_log2 (length A))) 0 →
  ∀ m i, 1 ≤ m ≤ lower_log2 (length A) → i + 2 ^ m ≤ length A →
         ∃ k, read2 M m i = Some k ∧ window_min A (m `min` 32) i k.
Proof. intros [_ Hent] m i Hm Hi. apply Hent. left. lia. Qed.

Lemma level_pow_le j n : 1 ≤ j ≤ lower_log2 n → 2 ^ j ≤ n.
Proof.
  intros Hj. unfold lower_log2 in Hj.
  destruct (Nat.log2_spec n) as [Hlo _].
  { destruct (decide (n = 0)) as [-> | Hn]; [|lia].
    rewrite Nat.log2_nonpos in Hj; lia. }
  etrans; [|exact Hlo]. apply Nat.pow_le_mono_r; lia.
Qed.

Lemma well_dimensioned_rectangle n rows cols c :
  lower_log2 n < rows → n ≤ S cols →
  well_dimensioned n (replicate rows (replicate cols c)).
Proof.
  intros Hrows Hcols j Hj. exists (replicate cols c). split.
  - apply lookup_replicate_2. lia.
  - rewrite length_replicate.
    pose proof (level_pow_le j n Hj). pose proof (pow2_gt j). lia.
Qed.

(** The entries of both tables, as the builders compute them: every flat
    entry, and every 2D entry up to level 32, is the leftmost minimum of its
    window and, from level 2 on, the argmin (left operand winning ties) of
    the two entries of the level below. *)
Lemma builders_entries (A : list nat) :
  3 ≤ length A →
  (Z.of_nat (table_size (length A)) < 2 ^ 64)%Z →
  (∃ T, preprocess_sparse_table A [] = Some T ∧
        ∀ j i, 1 ≤ j ≤ lower_log2 (length A) → i ≤ length A - 2 ^ j →
               entry_spec A (λ j i, T !! translate_sparse_table i j (length A)) j i)
  ∧ (∀ M0, well_dimensioned (length A) M0 →
       ∃ M, index_preprocess_sparse_table A M0 = Some M ∧
            ∀ j i, 1 ≤ j ≤ lower_log2 (length A) → j ≤ 32 →
                   i ≤ length A - 2 ^ j → entry_spec A (read2 M) j i).
Proof.
  intros Hlen Hfit. split.
  - destruct (preprocess_sparse_table_correct A Hlen) as (T & Hrun & Hinv).
    exists T. split; [done |]. intros j i Hj Hi.
    pose proof (level_pow_le j _ Hj).
    apply (entries_recurrence A (length A) (lower_log2 (length A))); [|done | lia].
    apply flat_entries; [done |]. by rewrite (flat_inv_length _ _ _ Hinv).
  - intros M0 Hdim.
    destruct (index_preprocess_sparse_table_correct A M0 Hlen Hdim) as (M & Hrun & Hinv).
    exists M. split; [done |]. intros j i Hj Hj32 Hi.
    pose proof (level_pow_le j _ Hj).
    apply (entries_recurrence A (length A) (lower_log2 (length A) `min` 32)); [|lia | lia].
    intros m i' Hm Hi'.
    destruct (index_entries A M0 M Hinv m i') as (k & Hk & HQ); [lia | done |].
    exists k. split; [done |]. by rewrite Nat.min_l in HQ by lia.
Qed.

(** X20: what the two tables hold after the builders have run over the same
    sequence of at least 3 elements.  Every entry of the flat table (a table
    of fewer than 2^64 entries, built from an empty vector), and every entry
    of the 2D table up to level 32 (built in an array with room), is the
    leftmost minimum of its window A[i .. i + 2^j − 1] and, from level 2 on,
    the argmin of the two entries of the level below at i and i + 2^(j−1),
    the left one winning ties. *)
Theorem sparse_table_entries_up_to_level_32 (A : list nat) (M0 : table2) :
  3 ≤ length A →
  (Z.of_nat (table_size (length A)) < 2 ^ 64)%Z →
  well_dimensioned (length A) M0 →
  (∃ T, preprocess_sparse_table A [] = Some T ∧
        ∀ j i, 1 ≤ j ≤ lower_log2 (length A) → i ≤ length A - 2 ^ j →
               entry_spec A (λ j i, T !! translate_sparse_table i j (length A)) j i)
  ∧ (∃ M, index_preprocess_sparse_table A M0 = Some M ∧
          ∀ j i, 1 ≤ j ≤ lower_log2 (length A) → j ≤ 32 →
                 i ≤ length A - 2 ^ j → entry_spec A (read2 M) j i).
Proof.
  intros Hlen Hfit Hdim.
  destruct (builders_entries A Hlen Hfit) as [Hflat Hindex].
  split; [exact Hflat | exact (Hindex M0 Hdim)].
Qed.

Lemma sparse_table_entries_up_to_level_32_witness :
  let A := [5; 2; 8; 1; 7] in
  lower_log2 (length A) = 2
  ∧ (∃ T, preprocess_sparse_table A [] = Some T ∧
          ∀ j i, 1 ≤ j ≤ lower_log2 (length A) → i ≤ length A - 2 ^ j →
                 entry_spec A (λ j i, T !! translate_sparse_table i j (length A)) j i)
  ∧ (∃ M, index_preprocess_sparse_table A (replicate 3 (replicate 5 0)) = Some M ∧
          ∀ j i, 1 ≤ j ≤ lower_log2 (length A) → j ≤ 32 →
                 i ≤ length A - 2 ^ j → entry_spec A (read2 M) j i).
Proof.
  split; [reflexivity |].
  apply (sparse_table_entries_up_to_level_32 [5; 2; 8; 1; 7] (replicate 3 (replicate 5 0)));
    [simpl; lia | reflexivity |].
  apply well_dimensioned_rectangle; [vm_compute; lia | simpl; lia].
Defined.

(** From level 33 on the 2D builder repeats level 32: in an array with room,
    over a sequence long enough to have a level 33, the entry M[33][0] is the
    leftmost minimum of the first 2^32 elements only. *)
Lemma index_levels_33 A M0 :
  3 ≤ length A → well_dimensioned (length A) M0 →
  33 ≤ lower_log2 (length A) →
  ∃ M k k', index_preprocess_sparse_table A M0 = Some M
            ∧ read2 M 33 0 = Some k
            ∧ leftmost_min A 0 (0 + 2 ^ 32 - 1) k
            ∧ read2 M 32 0 = Some k'
            ∧ leftmost_min A 0 (0 + 2 ^ 32 - 1) k'.
Proof.
  intros Hlen Hdim Hlog.
  destruct (index_preprocess_sparse_table_correct A M0 Hlen Hdim) as (M & Hrun & Hinv).
  pose proof (level_pow_le 33 (length A) ltac:(lia)) as Hpow.
  pose proof (level_pow_le 32 (length A) ltac:(lia)) as Hpow'.
  destruct (index_entries A M0 M Hinv 33 0) as (k & Hk & HQ); [lia | lia |].
  destruct (index_entries A M0 M Hinv 32 0) as (k' & Hk' & HQ'); [lia | lia |].
  exists M, k, k'. split; [exact Hrun |]. split; [exact Hk |].
  unfold window_min in HQ, HQ'.
  replace (33 `min` 32) with 32 in HQ by lia.
  replace (32 `min` 32) with 32 in HQ' by lia. done.
Qed.

Lemma pow2_33 : 2 ^ 33 = 2 * 2 ^ 32.
Proof. exact (Nat.pow_succ_r' 2 32). Qed.

Lemma pow2_32_pos : 0 < 2 ^ 32.
Proof. apply Nat.neq_0_lt_0, Nat.pow_nonzero. lia. Qed.

(** C3: over the sequence of 2^33 elements 1, ..., 1, 0, in a 34 × 2^33 array,
    (33, 0) is an entry of the table and the leftmost minimum of its window
    A[0 .. 2^33 − 1] is the last position, 2^33 − 1; the 2D builder stores
    the position 0 at M[33][0], the leftmost minimum of the first 2^32
    elements, which is what it stored at M[32][0]. *)
Theorem index_builder_level_33_entry :
  let A := replicate (2 ^ 33 - 1) 1 ++ [0] in
  let M0 := replicate 34 (replicate (2 ^ 33) 0) in
  valid_entry (length A) 33 0
  ∧ leftmost_min A 0 (0 + 2 ^ 33 - 1) (2 ^ 33 - 1)
  ∧ 0 ≠ 2 ^ 33 - 1
  ∧ ∃ M, index_preprocess_sparse_table A M0 = Some M
         ∧ read2 M 33 0 = Some 0
         ∧ read2 M 32 0 = Some 0.
Proof.
  intros A M0. pose proof pow2_33 as H33. pose proof pow2_32_pos as H32.
  pose proof (pow2_gt 33) as Hgt.
  assert (length A = 2 ^ 33) as HlenA.
  { unfold A. rewrite length_app, length_replicate. cbn [length]. lia. }
  assert (lower_log2 (length A) = 33) as Hlog.
  { rewrite HlenA. unfold lower_log2. apply Nat.log2_pow2. lia. }
  assert (∀ m, m < 2 ^ 33 - 1 → A !! m = Some 1) as Hones.
  { intros m Hm. unfold A. rewrite lookup_app_l by (rewrite length_replicate; lia).
    by apply lookup_replicate_2. }
  assert (∀ k, leftmost_min A 0 (0 + 2 ^ 32 - 1) k → k = 0) as Hfirst.
  { intros k (Hk & _ & a & Ha & Hall).
    rewrite Hones in Ha by lia. injection Ha as <-.
    destruct (Hall 0 1) as [_ Hle]; [lia | apply Hones; lia |].
    specialize (Hle eq_refl). lia. }
  split; [|split; [|split]].
  - split; [rewrite Hlog; lia | rewrite HlenA; lia].
  - split; [lia |]. split; [rewrite HlenA; lia |]. exists 0. split.
    + unfold A. apply list_lookup_middle. rewrite length_replicate. reflexivity.
    + intros m b Hm Hb. split; [lia |]. intros ->.
      destruct (Nat.lt_ge_cases m (2 ^ 33 - 1)) as [Hlt | Hge]; [|exact Hge].
      rewrite Hones in Hb by done. discriminate Hb.
  - lia.
  - destruct (index_levels_33 A M0) as (M & k & k' & Hrun & Hk & Hmin & Hk' & Hmin').
    + rewrite HlenA. lia.
    + unfold M0. apply well_dimensioned_rectangle; [rewrite Hlog; lia | rewrite HlenA; lia].
    + rewrite Hlog. lia.
    + exists M. split; [exact Hrun |].
      rewrite (Hfirst k Hmin) in Hk. rewrite (Hfirst k' Hmin') in Hk'. by split.
Qed.

(** C8: for a sequence of fewer than 3 elements (n = 2 included) both
    builders add nothing: whatever table they are given comes back as it
    was, so a table that was empty stays empty and level 1 is not built. *)
Theorem builders_skip_short_input (A : list nat) :
  length A < 3 →
  preprocess_sparse_table A [] = Some []
  ∧ (∀ M, preprocess_sparse_table A M = Some M)
  ∧ (∀ M, index_preprocess_sparse_table A M = Some M).
Proof.
  intros Hlen.
  assert (∀ M, preprocess_sparse_table A M = Some M) as Hflat.
  { intros M. unfold preprocess_sparse_table.
    rewrite preprocess_sparse_table_guard, bool_decide_eq_false_2 by lia. done. }
  split; [apply Hflat |]. split; [done |].
  intros M. unfold index_preprocess_sparse_table. by rewrite decide_False by lia.
Qed.

Lemma builders_skip_short_input_witness :
  let A := [5; 2] in
  preprocess_sparse_table A [] = Some []
  ∧ (∀ M, preprocess_sparse_table A M = Some M)
  ∧ (∀ M, index_preprocess_sparse_table A M = Some M).
Proof.
  apply (builders_skip_short_input [5; 2]). simpl. lia.
Defined.

(** ** The builders only append *)

Lemma level1_body_prefix A second first M s' :
  level1_body A second (first, M) = Some s' → M `prefix_of` s'.2.
Proof.
  unfold level1_body. intros Hb.
  destruct (A !! first) as [a|]; [|done]. destruct (A !! second) as [b|]; [|done].
  simpl in Hb. injection Hb as <-. by apply prefix_app_r.
Qed.

Lemma level_body_prefix A bl2 i Mi M s' :
  level_body A bl2 i (Mi, M) = Some s' → M `prefix_of` s'.2.
Proof.
  unfold level_body. intros Hb.
  destruct (M !! Mi) as [M1|]; [|done]. destruct (M !! (Mi + bl2)) as [M2|]; [|done].
  simpl in Hb.
  destruct (A !! M1) as [a1|]; [|done]. destruct (A !! M2) as [a2|]; [|done].
  simpl in Hb. injection Hb as <-. by apply prefix_app_r.
Qed.

Lemma levels_body_prefix A n j bl2 M s' :
  levels_body A n j (bl2, M) = Some s' → M `prefix_of` s'.2.
Proof.
  unfold levels_body. intros Hb.
  destruct (for_loop _ _ _ _) as [[Mi' M']|] eqn:Hrun; [|done].
  simpl in Hb. injection Hb as <-. cbn [snd].
  apply (for_loop_partial (λ _ (s : nat * list nat), M `prefix_of` s.2) _ _ _ _ _ Hrun);
    [done |].
  intros i [Mi1 M1] s1 _ Hpre Hstep. cbn [snd] in Hpre.
  etrans; [exact Hpre |]. by eapply level_body_prefix.
Qed.

(** Whenever the flat builder returns, what it was given is still in front. *)
Lemma preprocess_sparse_table_prefix A M M' :
  preprocess_sparse_table A M = Some M' → M `prefix_of` M'.
Proof.
  unfold preprocess_sparse_table. destruct (_ && _); [|by intros [= <-]].
  destruct (for_loop _ _ (level1_body A) _) as [[f1 M1]|] eqn:Hrun1; [|done].
  cbn [mbind option_bind].
  destruct (for_loop _ _ (levels_body A _) _) as [[bl M2]|] eqn:Hrun2; [|done].
  intros [= <-].
  assert (M `prefix_of` M1) as H1.
  { apply (for_loop_partial (λ _ (s : nat * list nat), M `prefix_of` s.2) _ _ _ _ _ Hrun1);
      [done |].
    intros i [fi Mi] s1 _ Hpre Hstep. cbn [snd] in Hpre.
    etrans; [exact Hpre |]. by eapply level1_body_prefix. }
  etrans; [exact H1 |].
  apply (for_loop_partial (λ _ (s : nat * list nat), M1 `prefix_of` s.2) _ _ _ _ _ Hrun2);
    [done |].
  intros j [bl2 Mj] s1 _ Hpre Hstep. cbn [snd] in Hpre.
  etrans; [exact Hpre |]. by eapply levels_body_prefix.
Qed.

(** It does return when the iterators already stored can be dereferenced. *)
Lemma preprocess_sparse_table_appends A M :
  Forall (λ p, p < length A) M →
  ∃ new, preprocess_sparse_table A M = Some (M ++ new).
Proof.
  intros Hvalid. destruct (decide (3 ≤ length A)) as [Hlen | Hshort].
  - destruct (preprocess_sparse_table_inv A M (λ _ _ k, k < length A))
      as (new & Hrun & _).
    + intros _ _ k. apply lookup_lt_is_Some_2.
    + intros m i x y vx vy _ _ Hx Hy _ _. by case_bool_decide.
    + done.
    + intros i k Hk. exact (Forall_lookup_1 (λ p, p < length A) M i k Hvalid Hk).
    + intros i k Hk. apply lookup_lt_is_Some_1. by eapply leftmost_min_valid.
    + by exists new.
  - exists []. rewrite app_nil_r. unfold preprocess_sparse_table.
    rewrite preprocess_sparse_table_guard, bool_decide_eq_false_2 by lia. done.
Qed.

(** ** Range-minimum queries *)



Lemma index_query_short_input : ¬ index_query_minimum [5; 2] 0 1.
Proof.
  intros Hclaim. destruct (Hclaim [[0]; [0]]) as (M & k & Hrun & Hq & Hmin).
  - intros j Hj. assert (j = 1) as -> by (vm_compute in Hj; lia).
    exists [0]. split; [done |]. simpl. lia.
  - vm_compute in Hrun. injection Hrun as <-.
    vm_compute in Hq. injection Hq as <-.
    destruct Hmin as (_ & _ & a & Ha & Hall).
    injection Ha as <-. destruct (Hall 1 2) as [Hle _]; [lia | done | lia].
Qed.




(** What the flat query does on a single element that has a right neighbour:
    it returns the level-1 entry, the leftmost minimum of A[i..i+1]. *)
Lemma query_sparse_table_single A T i :
  flat_inv (window_min A) (length A) T (S (lower_log2 (length A))) 0 →
  i + 2 ≤ length A →
  ∃ k, query_sparse_table A i i (length A) T = Some k ∧ leftmost_min A i (i + 1) k.
Proof.
  intros [_ Hent] Hi.
  assert (1 ≤ lower_log2 (length A)) by (apply Nat.log2_le_pow2; simpl; lia).
  destruct (Hent 1 i) as (k & Hk & HQ); [left; simpl; lia |].
  exists k. split.
  - unfold query_sparse_table.
    rewrite Nat.leb_refl, (proj2 (Nat.ltb_lt i (length A))), Nat.eqb_refl by lia.
    done.
  - unfold window_min in HQ. simpl in HQ. by replace (i + 2 - 1) with (i + 1) in HQ by lia.
Qed.

(** ** First occurrences *)

(** The counted overload, run over the whole sequence, writes the positions
    of the first occurrences, in increasing order: one per distinct element. *)
Lemma representative_element_n_correct (E : list nat) :
  ∃ R, jwm.representative_element_n E (length E) = Some R
       ∧ StronglySorted lt R
       ∧ ∀ k, k ∈ R ↔ first_occurrence E k.
Proof.
  destruct (for_loop_total
    (λ i (s : list nat * gset nat * list nat),
       s.1.1 = drop i E
       ∧ (∀ x, x ∈ s.1.2 ↔ x ∈ take i E)
       ∧ StronglySorted lt s.2
       ∧ ∀ k, k ∈ s.2 ↔ k < i ∧ first_occurrence E k)
    (length E) 0
    (λ i '(first, seen, result),
       match first with
       | [] => None
       | x :: first' =>
           if decide (x ∈ (seen : gset nat))
           then Some (first', seen, result)
           else Some (first', {[x]} ∪ seen, result ++ [i])
       end) (E, ∅, []))
    as ([[first seen] R] & Hrun & _ & _ & Hsorted & Hmem).
  - cbn [fst snd]. split; [done |]. split; [set_solver |].
    split; [constructor |]. intros k. split; [by intros ?%elem_of_nil | lia].
  - intros i [[first seen] result] Hi HI. cbn [fst snd] in HI.
    destruct HI as (-> & Hseen & Hsorted & Hmem).
    destruct (lookup_lt_is_Some_2 E i) as [x Hx]; [lia |].
    rewrite (drop_S _ _ _ Hx).
    assert (x ∈ take i E → ¬ first_occurrence E i) as Hrep.
    { intros (k' & Hk' & Hlt)%elem_of_take (y & Hy & Hfirst). rewrite Hx in Hy.
      injection Hy as <-. by apply (Hfirst k'). }
    assert (x ∉ take i E → first_occurrence E i) as Hnew.
    { intros Hout. exists x. split; [done |].
      intros k' Hlt Hk'. apply Hout, elem_of_take. by exists k'. }
    assert (∀ seen' : gset nat, (∀ y, y ∈ seen' ↔ y = x ∨ y ∈ seen) →
                     ∀ y, y ∈ seen' ↔ y ∈ take (S i) E) as Hseen'.
    { intros seen' Hs y. rewrite (take_S_r _ _ _ Hx), Hs, elem_of_app, Hseen.
      rewrite list_elem_of_singleton. tauto. }
    destruct (decide (x ∈ seen)) as [Hin | Hout].
    + eexists. split; [reflexivity |]. cbn [fst snd].
      split; [done |]. split.
      { apply Hseen'. intros y. split; [tauto | by intros [-> | ?]]. }
      split; [done |].
      intros k. rewrite Hmem. apply Hseen, Hrep in Hin.
      split; intros [Hk Hf]; (split; [|done]); [lia |].
      destruct (decide (k = i)) as [-> | Hne]; [done | lia].
    + eexists. split; [reflexivity |]. cbn [fst snd].
      split; [done |]. split.
      { apply Hseen'. intros y. rewrite elem_of_union, elem_of_singleton. tauto. }
      assert (first_occurrence E i) as Hfi.
      { apply Hnew. intros Hin. by apply Hout, Hseen. }
      split.
      * apply StronglySorted_app_2; [| done | repeat constructor].
        intros k1 k2 Hk1 ->%list_elem_of_singleton. by apply Hmem in Hk1 as [? _].
      * intros k. rewrite elem_of_app, list_elem_of_singleton, Hmem. split.
        -- intros [[Hk Hf] | ->]; [split; [lia | done] | split; [lia | done]].
        -- intros [Hk Hf]. destruct (decide (k = i)) as [-> | Hne]; [by right |].
           left. split; [lia | done].
  - exists R. split.
    + unfold jwm.representative_element_n. rewrite Hrun. done.
    + split; [done |]. intros k. rewrite Hmem. split; [by intros [_ ?] |].
      intros Hf. split; [|done]. destruct Hf as (x & Hx & _).
      by apply lookup_lt_Some in Hx.
Qed.

(** ** The code at the inputs where it departs from the claims *)

(** C4: on the table built over [5; 2; 8] the flat query of the single
    element 0 returns the table entry at 0, the position of the value 2, and
    the query of the single element 2 reads past the end of the table; the 2D
    query returns the position asked for. *)
Theorem flat_single_element_query_reads_table :
  preprocess_sparse_table [5; 2; 8] [] = Some [1; 1]
  ∧ query_sparse_table [5; 2; 8] 0 0 3 [1; 1] = Some 1
  ∧ query_sparse_table [5; 2; 8] 2 2 3 [1; 1] = None
  ∧ ∀ M, index_query_sparse_table 0 0 [5; 2; 8] M = Some 0.
Proof. repeat split. Qed.

(** C5: the two representations, built over the same sequences, answer
    differently: at [5; 2; 8] and the range [0, 0], and at a sequence of ten
    elements and the range [0, 7], where the 2D query returns position 9. *)
Theorem flat_and_index_queries_differ :
  (∃ T M, preprocess_sparse_table [5; 2; 8] [] = Some T
          ∧ index_preprocess_sparse_table [5; 2; 8] (replicate 2 (replicate 3 0)) = Some M
          ∧ query_sparse_table [5; 2; 8] 0 0 3 T = Some 1
          ∧ index_query_sparse_table 0 0 [5; 2; 8] M = Some 0)
  ∧ (let A := [5; 5; 5; 5; 5; 5; 5; 5; 5; 0] in
     ∃ T M, preprocess_sparse_table A [] = Some T
            ∧ index_preprocess_sparse_table A (replicate 4 (replicate 10 0)) = Some M
            ∧ query_sparse_table A 0 7 10 T = Some 0
            ∧ index_query_sparse_table 0 7 A M = Some 9).
Proof.
  split.
  - eexists _, _. split; [vm_compute; reflexivity |].
    split; [vm_compute; reflexivity |]. split; vm_compute; reflexivity.
  - eexists _, _. split; [vm_compute; reflexivity |].
    split; [vm_compute; reflexivity |]. split; vm_compute; reflexivity.
Qed.

(** C6: on [0; 0; 1; 0] the iterator-range overload records position 1 for
    the element 1, whose first occurrence is at position 2 (the counted
    overload records 2), and on a sequence of odd length it steps past the
    end. *)
Theorem representative_element_range_skips :
  jwm.representative_element [0; 0; 1; 0] = Some [0; 1]
  ∧ jwm.representative_element_n [0; 0; 1; 0] 4 = Some [0; 2]
  ∧ jwm.representative_element [0; 1] = Some [0]
  ∧ jwm.representative_element [0; 1; 0] = None.
Proof. repeat split; vm_compute; reflexivity. Qed.

(** C9: over 8 elements, the query of the range [0, 7] reads level 3 at
    position 0 + (8 − 2·3) = 2, beyond the last valid position 8 − 2^3 = 0 of
    that level: in a table whose rows hold exactly the valid positions the
    builder succeeds and the query reads out of bounds, and in a rectangular
    table the cell read still holds what the caller's array held. *)
Theorem index_query_reads_outside_level :
  let A := [3; 1; 4; 1; 5; 9; 2; 6] in
  well_dimensioned (length A) exact_table_8
  ∧ (∃ M, index_preprocess_sparse_table A exact_table_8 = Some M
          ∧ lower_log2 (7 - 0 + 1) = 3
          ∧ length A - 2 ^ 3 < 0 + (7 - 0 + 1 - 2 * 3)
          ∧ read2 M 3 (0 + (7 - 0 + 1 - 2 * 3)) = None
          ∧ index_query_sparse_table 0 7 A M = None)
  ∧ (∃ M, index_preprocess_sparse_table A (replicate 4 (replicate 8 0)) = Some M
          ∧ read2 M 3 2 = Some 0)
  ∧ (∃ M, index_preprocess_sparse_table A (replicate 4 (replicate 8 7)) = Some M
          ∧ read2 M 3 2 = Some 7).
Proof.
  split; [|split; [|split]].
  - intros j Hj. change (lower_log2 (length _)) with 3 in Hj.
    destruct j as [|[|[|[|j]]]]; try lia; eexists; (split; [reflexivity | simpl; lia]).
  - eexists. split; [vm_compute; reflexivity |].
    repeat split; vm_compute; try reflexivity. lia.
  - eexists. split; vm_compute; reflexivity.
  - eexists. split; vm_compute; reflexivity.
Qed.

(** ** Further properties of the flat builder *)

Lemma level_start_total n j :
  1 ≤ j → 2 ^ (j - 1) ≤ n →
  level_start n j + 2 ^ j = (j - 1) * n + j + 1.
Proof.
  induction j as [|j IH]; [lia |]. intros _ Hn.
  destruct (decide (j = 0)) as [-> | Hj]; [simpl; lia |].
  rewrite level_start_succ by lia.
  replace (S j - 1) with j in Hn by lia.
  assert (2 ^ j = 2 * 2 ^ (j - 1)) as Hq.
  { replace j with (S (j - 1)) at 1 by lia. simpl. lia. }
  assert (2 ^ S j = 2 * 2 ^ j) as Hp by (simpl; lia).
  specialize (IH ltac:(lia) ltac:(lia)).
  replace (S j - 1) with (S (j - 1)) by lia. simpl Nat.mul. lia.
Qed.

(** X1: built from an empty vector over n ≥ 3 elements, the flat table holds
    the n − 2^j + 1 entries of every level j = 1 .. L, L = ⌊log2 n⌋, and
    nothing else: |T| + 2^(L+1) = L·n + L + 2. *)
Theorem flat_table_length (A : list nat) :
  3 ≤ length A →
  let L := lower_log2 (length A) in
  ∃ T, preprocess_sparse_table A [] = Some T
       ∧ length T = table_size (length A)
       ∧ length T + 2 ^ S L = L * length A + L + 2.
Proof.
  intros Hlen L.
  destruct (preprocess_sparse_table_correct A Hlen) as (T & Hrun & Hinv).
  exists T. split; [done |].
  pose proof (flat_inv_length _ _ _ Hinv) as HT. split; [done |].
  rewrite HT. unfold table_size. fold L.
  assert (1 ≤ L) by (apply Nat.log2_le_pow2; simpl; lia).
  pose proof (level_start_total (length A) (S L) ltac:(lia)) as Hc.
  replace (S L - 1) with L in Hc by lia.
  rewrite Hc; [lia |]. apply level_pow_le. fold L. lia.
Qed.

Lemma flat_table_length_witness :
  let L := lower_log2 (length [5; 2; 8; 1; 7]) in
  ∃ T, preprocess_sparse_table [5; 2; 8; 1; 7] [] = Some T
       ∧ length T = table_size (length [5; 2; 8; 1; 7])
       ∧ length T + 2 ^ S L = L * length [5; 2; 8; 1; 7] + L + 2.
Proof.
  apply (flat_table_length [5; 2; 8; 1; 7]). simpl. lia.
Defined.

Lemma level1_body_valid A second first M s' :
  level1_body A second (first, M) = Some s' →
  ∃ k, s'.2 = M ++ [k] ∧ k < length A.
Proof.
  unfold level1_body. intros Hb.
  destruct (A !! first) as [a|] eqn:Ha; [|done].
  destruct (A !! second) as [b|] eqn:Hb'; [|done].
  simpl in Hb. injection Hb as <-. eexists. split; [done |].
  apply lookup_lt_Some in Ha, Hb'. by case_bool_decide.
Qed.

Lemma level_body_valid A bl2 i Mi M s' :
  level_body A bl2 i (Mi, M) = Some s' →
  ∃ k, s'.2 = M ++ [k] ∧ k < length A.
Proof.
  unfold level_body. intros Hb.
  destruct (M !! Mi) as [M1|]; [|done]. destruct (M !! (Mi + bl2)) as [M2|]; [|done].
  simpl in Hb.
  destruct (A !! M1) as [a1|] eqn:H1; [|done].
  destruct (A !! M2) as [a2|] eqn:H2; [|done].
  simpl in Hb. injection Hb as <-. eexists. split; [done |].
  apply lookup_lt_Some in H1, H2. by case_bool_decide.
Qed.

Lemma appended_valid_step (A M M1 : list nat) k :
  (∃ new, M1 = M ++ new ∧ Forall (λ p, p < length A) new) →
  k < length A →
  ∃ new, M1 ++ [k] = M ++ new ∧ Forall (λ p, p < length A) new.
Proof.
  intros (new & -> & Hnew) Hk. exists (new ++ [k]).
  split; [by rewrite app_assoc |]. apply Forall_app. split; [done |].
  by repeat constructor.
Qed.

Lemma levels_body_valid A n j bl2 M M1 s' :
  (∃ new, M1 = M ++ new ∧ Forall (λ p, p < length A) new) →
  levels_body A n j (bl2, M1) = Some s' →
  ∃ new, s'.2 = M ++ new ∧ Forall (λ p, p < length A) new.
Proof.
  unfold levels_body. intros HM1 Hb.
  destruct (for_loop _ _ _ _) as [[Mi' M']|] eqn:Hrun; [|done].
  simpl in Hb. injection Hb as <-. cbn [snd].
  apply (for_loop_partial
           (λ _ (s : nat * list nat),
              ∃ new, s.2 = M ++ new ∧ Forall (λ p, p < length A) new)
           _ _ _ _ _ Hrun); [done |].
  intros i [Mi1 M2] s1 _ HI Hstep. cbn [snd] in HI.
  destruct (level_body_valid _ _ _ _ _ _ Hstep) as (k & -> & Hk).
  by apply appended_valid_step.
Qed.

(** Whatever the flat builder appends is a position inside the sequence. *)
Lemma preprocess_sparse_table_new_valid A M M' :
  preprocess_sparse_table A M = Some M' →
  ∃ new, M' = M ++ new ∧ Forall (λ p, p < length A) new.
Proof.
  unfold preprocess_sparse_table. destruct (_ && _).
  2:{ intros [= <-]. exists []. by rewrite app_nil_r. }
  destruct (for_loop _ _ (level1_body A) _) as [[f1 M1]|] eqn:Hrun1; [|done].
  cbn [mbind option_bind].
  destruct (for_loop _ _ (levels_body A _) _) as [[bl M2]|] eqn:Hrun2; [|done].
  intros [= <-].
  assert (∃ new, M1 = M ++ new ∧ Forall (λ p, p < length A) new) as H1.
  { apply (for_loop_partial
             (λ _ (s : nat * list nat),
                ∃ new, s.2 = M ++ new ∧ Forall (λ p, p < length A) new)
             _ _ _ _ _ Hrun1).
    - exists []. by rewrite app_nil_r.
    - intros i [fi Mi] s1 _ HI Hstep. cbn [snd] in HI.
      destruct (level1_body_valid _ _ _ _ _ Hstep) as (k & -> & Hk).
      by apply appended_valid_step. }
  apply (for_loop_partial
           (λ _ (s : nat * list nat),
              ∃ new, s.2 = M ++ new ∧ Forall (λ p, p < length A) new)
           _ _ _ _ _ Hrun2); [done |].
  intros j [bl2 Mj] s1 _ HI Hstep. cbn [snd] in HI.
  by eapply levels_body_valid.
Qed.

(** X2: a table that holds only iterators into [first, last) still holds only
    such iterators after the flat builder has run on it: every iterator the
    builder appends points at an element of the sequence. *)
Theorem flat_table_iterators_valid (A M : list nat) :
  Forall (λ p, p < length A) M →
  ∃ new, preprocess_sparse_table A M = Some (M ++ new)
         ∧ Forall (λ p, p < length A) new
         ∧ Forall (λ p, p < length A) (M ++ new).
Proof.
  intros HM. destruct (preprocess_sparse_table_appends A M HM) as [new Hrun].
  destruct (preprocess_sparse_table_new_valid _ _ _ Hrun) as (new' & Heq & Hnew).
  apply app_inv_head in Heq as ->.
  exists new'. split; [done |]. split; [done |]. by apply Forall_app.
Qed.

Lemma flat_table_iterators_valid_witness :
  ∃ new, preprocess_sparse_table [5; 2; 8; 1] [3; 0] = Some ([3; 0] ++ new)
         ∧ Forall (λ p, p < length [5; 2; 8; 1]) new
         ∧ Forall (λ p, p < length [5; 2; 8; 1]) ([3; 0] ++ new).
Proof.
  apply (flat_table_iterators_valid [5; 2; 8; 1] [3; 0]).
  repeat constructor.
Defined.

(** X3: run on a vector that already holds m iterators, the flat builder takes
    n = M.size() + 1 after its first loop, that is m + |A|: it returns a table
    with as many entries as a problem of that size has, the old entries
    counted as level-1 entries. *)
Theorem flat_table_length_on_content (A M : list nat) :
  3 ≤ length A →
  Forall (λ p, p < length A) M →
  ∃ new, preprocess_sparse_table A M = Some (M ++ new)
         ∧ length (M ++ new) = table_size (length M + length A).
Proof.
  intros Hlen HM.
  destruct (preprocess_sparse_table_inv A M (λ _ _ k, k < length A))
    as (new & Hrun & Hinv).
  - intros _ _ k. apply lookup_lt_is_Some_2.
  - intros m i x y vx vy _ _ Hx Hy _ _. by case_bool_decide.
  - done.
  - intros i k Hk. exact (Forall_lookup_1 (λ p, p < length A) M i k HM Hk).
  - intros i k Hk. apply lookup_lt_is_Some_1. by eapply leftmost_min_valid.
  - exists new. split; [done |]. by apply (flat_inv_length _ _ _ Hinv).
Qed.

Lemma flat_table_length_on_content_witness :
  ∃ new, preprocess_sparse_table [5; 2; 8] [1] = Some ([1] ++ new)
         ∧ length ([1] ++ new) = table_size (length [1] + length [5; 2; 8]).
Proof.
  apply (flat_table_length_on_content [5; 2; 8] [1]); [simpl; lia |].
  repeat constructor.
Defined.

(** ** Further properties of the 2D builder *)

Lemma write2_inv M M' j i v :
  write2 M j i v = Some M' → ∃ row, M !! j = Some row ∧ i < length row.
Proof.
  unfold write2. intros Hw. destruct (M !! j) as [row|]; [|done].
  simpl in Hw. case_decide; [|done]. by exists row.
Qed.

Lemma index_level1_body_write A j i M M' :
  index_level1_body A j i M = Some M' → ∃ v, write2 M j i v = Some M'.
Proof.
  unfold index_level1_body. intros Hb.
  destruct (A !! i) as [a|]; [|done]. destruct (A !! (i + 1)) as [b|]; [|done].
  by eexists.
Qed.

Lemma index_level_body_write A j pbl i M M' :
  index_level_body A j pbl i M = Some M' → ∃ v, write2 M j i v = Some M'.
Proof.
  unfold index_level_body. intros Hb.
  destruct (read2 M (j - 1) i) as [M1|]; [|done].
  destruct (read2 M (j - 1) (i + pbl)) as [M2|]; [|done]. simpl in Hb.
  destruct (A !! M1) as [a1|]; [|done]. destruct (A !! M2) as [a2|]; [|done].
  by eexists.
Qed.

(** One write at an entry of the table keeps the frame, and shows that the
    caller's row reaches that position. *)
Lemma index_frame_write n M0 M M' j i v :
  index_frame n M0 M → valid_entry n j i → write2 M j i v = Some M' →
  index_frame n M0 M' ∧ has_room M0 j (S i).
Proof.
  intros [Hshape Hframe] Hvalid Hw. split; [split |].
  - by rewrite (write2_shape _ _ _ _ _ Hw).
  - intros j' i' Hinv. rewrite (read2_write2 _ _ _ _ _ _ _ Hw).
    rewrite decide_False; [by apply Hframe |]. by intros [-> ->].
  - destruct (write2_inv _ _ _ _ _ Hw) as (row & Hrow & Hi).
    assert ((length <$> M0) !! j = Some (length row)) as Hl.
    { by rewrite <- Hshape, list_lookup_fmap, Hrow. }
    rewrite list_lookup_fmap in Hl.
    destruct (M0 !! j) as [row0|] eqn:Hrow0; [|done]. injection Hl as Hl.
    exists row0. split; [done | lia].
Qed.

(** A loop that writes the positions 0 .. cnt−1 of level [j]. *)
Lemma index_row_loop n M0 j cnt (body : nat → table2 → option table2) M M' :
  (∀ i M1 M2, body i M1 = Some M2 → ∃ v, write2 M1 j i v = Some M2) →
  (∀ i, i < cnt → valid_entry n j i) →
  for_loop cnt 0 body M = Some M' →
  index_frame n M0 M →
  index_frame n M0 M' ∧ (0 < cnt → has_room M0 j cnt).
Proof.
  intros Hbody Hvalid Hrun Hframe.
  apply (for_loop_partial
           (λ c M1, index_frame n M0 M1 ∧ (0 < c → has_room M0 j c))
           _ _ _ _ _ Hrun).
  - split; [done | lia].
  - intros i M1 M2 Hi [HF _] Hstep.
    destruct (Hbody _ _ _ Hstep) as [v Hw].
    destruct (index_frame_write n M0 M1 M2 j i v HF) as [HF' Hroom];
      [apply Hvalid; lia | done |].
    split; [done |]. by intros _.
Qed.

Lemma index_preprocess_sparse_table_partial A M0 M :
  3 ≤ length A →
  index_preprocess_sparse_table A M0 = Some M →
  index_frame (length A) M0 M ∧ well_dimensioned (length A) M0.
Proof.
  intros Hlen. unfold index_preprocess_sparse_table.
  rewrite decide_True by lia. cbn zeta.
  destruct (for_loop _ _ (index_level1_body A 1) _) as [M1|] eqn:Hrun1; [|done].
  cbn [mbind option_bind].
  destruct (for_loop _ _ (index_levels_body A _) _) as [[bl M2]|] eqn:Hrun2; [|done].
  intros [= <-].
  set (n := length A) in *.
  assert (1 ≤ lower_log2 n) as Hlog by (apply Nat.log2_le_pow2; simpl; lia).
  destruct (index_row_loop n M0 1 (n - 1) (index_level1_body A 1) M0 M1)
    as [HF1 Hroom1].
  { intros i Ma Mb. apply index_level1_body_write. }
  { intros i Hi. split; [lia | simpl; lia]. }
  { done. }
  { by split. }
  pose proof (for_loop_partial
    (λ j (s : nat * table2),
       index_frame n M0 s.2 ∧ ∀ m, 1 ≤ m < j → has_room M0 m (n - 2 ^ m + 1))
    _ _ _ _ _ Hrun2) as Hout.
  destruct Hout as [HF2 Hroom2].
  - cbn [snd]. split; [done |]. intros m Hm. assert (m = 1) as -> by lia.
    simpl. replace (n - 2 + 1) with (n - 1) by lia. apply Hroom1. lia.
  - intros j [pbl Ma] [bl' Mb] Hj [HFa Hrooma] Hstep. cbn [snd] in *.
    unfold index_levels_body in Hstep.
    destruct (for_loop _ _ (index_level_body A j pbl) _) as [Mc|] eqn:Hrun; [|done].
    simpl in Hstep. injection Hstep as _ <-.
    assert (2 ^ j ≤ n) as Hpow by (apply level_pow_le; lia).
    destruct (index_row_loop n M0 j (n - pow2 j + 1) (index_level_body A j pbl) Ma Mc)
      as [HFc Hroomc]; [| | done | done |].
    { intros i Mx My. apply index_level_body_write. }
    { intros i Hi. unfold pow2 in Hi. split; lia. }
    split; [done |]. intros m Hm.
    destruct (decide (m = j)) as [-> | Hne]; [|apply Hrooma; lia].
    apply Hroomc. lia.
  - cbn [snd] in *. split; [done |].
    intros j Hj. destruct (Hroom2 j) as (row & Hrow & Hl); [lia |]. by exists row.
Qed.

(** X4: the 2D builder writes the entries of the table and nothing else: the
    shape of the caller's array is kept, and row 0, the rows above level
    ⌊log2 n⌋ and the cells past position n − 2^j of a level j hold what they
    held before. *)
Theorem index_builder_frame (A : list nat) (M0 : table2) :
  well_dimensioned (length A) M0 →
  ∃ M, index_preprocess_sparse_table A M0 = Some M
       ∧ length <$> M = length <$> M0
       ∧ ∀ j i, ¬ valid_entry (length A) j i → read2 M j i = read2 M0 j i.
Proof.
  intros Hdim. destruct (decide (3 ≤ length A)) as [Hlen | Hshort].
  - destruct (index_preprocess_sparse_table_correct A M0 Hlen Hdim) as (M & Hrun & _).
    exists M. split; [done |].
    by destruct (index_preprocess_sparse_table_partial A M0 M Hlen Hrun) as [[? ?] _].
  - exists M0. split; [|done].
    unfold index_preprocess_sparse_table. by rewrite decide_False by lia.
Qed.

Lemma index_builder_frame_witness :
  ∃ M, index_preprocess_sparse_table [5; 2; 8; 1] (replicate 3 (replicate 4 9)) = Some M
       ∧ length <$> M = length <$> replicate 3 (replicate 4 9)
       ∧ ∀ j i, ¬ valid_entry (length [5; 2; 8; 1]) j i →
                read2 M j i = read2 (replicate 3 (replicate 4 9)) j i.
Proof.
  apply (index_builder_frame [5; 2; 8; 1] (replicate 3 (replicate 4 9))).
  apply well_dimensioned_rectangle; [vm_compute; lia | simpl; lia].
Defined.

(** X5: over at least 3 elements the 2D builder runs to completion exactly
    when every level j = 1 .. ⌊log2 n⌋ has a row of at least n − 2^j + 1
    cells in the caller's array; in a smaller array it writes out of
    bounds. *)
Theorem index_builder_needs_room (A : list nat) (M0 : table2) :
  3 ≤ length A →
  is_Some (index_preprocess_sparse_table A M0) ↔ well_dimensioned (length A) M0.
Proof.
  intros Hlen. split.
  - intros [M Hrun]. by destruct (index_preprocess_sparse_table_partial A M0 M Hlen Hrun).
  - intros Hdim.
    destruct (index_preprocess_sparse_table_correct A M0 Hlen Hdim) as (M & Hrun & _).
    by exists M.
Qed.

Lemma index_builder_needs_room_witness :
  is_Some (index_preprocess_sparse_table [5; 2; 8; 1] (replicate 3 (replicate 4 0)))
  ↔ well_dimensioned (length [5; 2; 8; 1]) (replicate 3 (replicate 4 0)).
Proof.
  apply (index_builder_needs_room [5; 2; 8; 1]). simpl. lia.
Defined.

(** ** The flat layout and the two representations *)

Lemma level_start_next_le n j1 j2 :
  1 ≤ j1 < j2 → level_start n j1 + (n - 2 ^ j1 + 1) ≤ level_start n j2.
Proof.
  intros [H1 H2]. induction j2 as [|j IH]; [lia |].
  rewrite level_start_succ by lia.
  destruct (decide (j1 = j)) as [-> | Hne]; [lia |].
  specialize (IH ltac:(lia)). lia.
Qed.

Lemma valid_entry_position n j i :
  valid_entry n j i → level_start n j + i < table_size n.
Proof.
  intros [Hj Hi]. unfold table_size.
  pose proof (level_start_next_le n j (S (lower_log2 n)) ltac:(lia)). lia.
Qed.

Lemma valid_entry_translate n j i :
  (Z.of_nat (table_size n) < 2 ^ 64)%Z → valid_entry n j i →
  translate_sparse_table i j n = level_start n j + i.
Proof.
  intros Hfit Hv. pose proof (valid_entry_position n j i Hv).
  destruct Hv as [Hj Hi]. pose proof (level_pow_le j n Hj).
  apply translate_level_start; lia.
Qed.

(** X6: inside a table that fits the address space, [translate_sparse_table]
    sends every entry (level j, position i) to a flat offset below the table
    size, and two different entries to two different offsets. *)
Theorem translate_offsets_distinct (n j1 i1 j2 i2 : nat) :
  (Z.of_nat (table_size n) < 2 ^ 64)%Z →
  valid_entry n j1 i1 → valid_entry n j2 i2 →
  translate_sparse_table i1 j1 n < table_size n
  ∧ (translate_sparse_table i1 j1 n = translate_sparse_table i2 j2 n →
     j1 = j2 ∧ i1 = i2).
Proof.
  intros Hfit Hv1 Hv2.
  rewrite !valid_entry_translate by done.
  split; [by apply valid_entry_position |].
  intros Heq. destruct Hv1 as [Hj1 Hi1], Hv2 as [Hj2 Hi2].
  assert (0 < 2 ^ j1) by (apply Nat.neq_0_lt_0, Nat.pow_nonzero; lia).
  assert (0 < 2 ^ j2) by (apply Nat.neq_0_lt_0, Nat.pow_nonzero; lia).
  destruct (Nat.lt_trichotomy j1 j2) as [Hlt | [-> | Hgt]].
  - pose proof (level_start_next_le n j1 j2 ltac:(lia)). lia.
  - split; [done | lia].
  - pose proof (level_start_next_le n j2 j1 ltac:(lia)). lia.
Qed.

Lemma translate_offsets_distinct_witness :
  translate_sparse_table 1 2 9 < table_size 9
  ∧ (translate_sparse_table 1 2 9 = translate_sparse_table 0 3 9 → 2 = 3 ∧ 1 = 0).
Proof.
  apply (translate_offsets_distinct 9 2 1 3 0);
    [reflexivity | split; [vm_compute; lia | simpl; lia]..].
Defined.

(** X7: over the same sequence of at least 3 elements, what the 2D table holds
    at row j, column i is what the flat table holds at
    [translate_sparse_table i (min j 32) n]: the two builders store the same
    positions up to level 32, and above it the 2D builder, whose
    [prev_block_length] is a 32-bit value, repeats the entries of level 32. *)
Theorem builders_store_same_entries (A : list nat) (M0 : table2) :
  3 ≤ length A →
  (Z.of_nat (table_size (length A)) < 2 ^ 64)%Z →
  well_dimensioned (length A) M0 →
  ∃ T M, preprocess_sparse_table A [] = Some T
         ∧ index_preprocess_sparse_table A M0 = Some M
         ∧ ∀ j i, valid_entry (length A) j i →
                  ∃ k, T !! translate_sparse_table i (j `min` 32) (length A) = Some k
                       ∧ read2 M j i = Some k.
Proof.
  intros Hlen Hfit Hdim.
  destruct (preprocess_sparse_table_correct A Hlen) as (T & HrunT & HinvT).
  destruct (index_preprocess_sparse_table_correct A M0 Hlen Hdim) as (M & HrunM & HinvM).
  exists T, M. split; [done |]. split; [done |]. intros j i [Hj Hi].
  assert (2 ^ (j `min` 32) ≤ 2 ^ j) by (apply Nat.pow_le_mono_r; lia).
  destruct (flat_entries A T HinvT) with (m := j `min` 32) (i := i) as (k & Hk & HQ);
    [by rewrite (flat_inv_length _ _ _ HinvT) | lia | lia |].
  destruct (index_entries A M0 M HinvM j i Hj Hi) as (k' & Hk' & HQ').
  exists k. split; [done |]. rewrite Hk'. f_equal.
  by apply (leftmost_min_unique A i (i + 2 ^ (j `min` 32) - 1)).
Qed.

Lemma builders_store_same_entries_witness :
  ∃ T M, preprocess_sparse_table [5; 2; 8; 1] [] = Some T
         ∧ index_preprocess_sparse_table [5; 2; 8; 1] (replicate 3 (replicate 4 0)) = Some M
         ∧ ∀ j i, valid_entry (length [5; 2; 8; 1]) j i →
                  ∃ k, T !! translate_sparse_table i (j `min` 32) (length [5; 2; 8; 1]) = Some k
                       ∧ read2 M j i = Some k.
Proof.
  apply (builders_store_same_entries [5; 2; 8; 1] (replicate 3 (replicate 4 0)));
    [simpl; lia | reflexivity |].
  apply well_dimensioned_rectangle; [vm_compute; lia | simpl; lia].
Defined.

(** X8: on tables built over the same sequence of at least 3 elements, the
    flat query and the 2D query return the same position for every range
    i < j < n of fewer than 8 elements. *)
Theorem queries_agree_on_short_ranges (A : list nat) (M0 : table2) (i j : nat) :
  3 ≤ length A →
  (Z.of_nat (table_size (length A)) < 2 ^ 64)%Z →
  well_dimensioned (length A) M0 →
  i < j < length A → j - i + 1 < 8 →
  ∃ T M k, preprocess_sparse_table A [] = Some T
           ∧ index_preprocess_sparse_table A M0 = Some M
           ∧ query_sparse_table A i j (length A) T = Some k
           ∧ index_query_sparse_table i j A M = Some k.
Proof.
  intros Hlen Hfit Hdim Hij Hshort.
  destruct (preprocess_sparse_table_correct A Hlen) as (T & HrunT & HinvT).
  destruct (index_preprocess_sparse_table_correct A M0 Hlen Hdim) as (M & HrunM & HinvM).
  destruct (query_sparse_table_correct A T i j) as (k & Hq & Hmin);
    [done | by rewrite (flat_inv_length _ _ _ HinvT) | done |].
  destruct (index_query_sparse_table_correct A M0 M i j) as (k' & Hq' & Hmin');
    [done | done | done |].
  exists T, M, k. split; [done |]. split; [done |]. split; [done |].
  rewrite Hq'. f_equal. by apply (leftmost_min_unique A i j).
Qed.

Lemma queries_agree_on_short_ranges_witness :
  ∃ T M k, preprocess_sparse_table [5; 2; 8; 1] [] = Some T
           ∧ index_preprocess_sparse_table [5; 2; 8; 1] (replicate 3 (replicate 4 0)) = Some M
           ∧ query_sparse_table [5; 2; 8; 1] 0 3 (length [5; 2; 8; 1]) T = Some k
           ∧ index_query_sparse_table 0 3 [5; 2; 8; 1] M = Some k.
Proof.
  apply (queries_agree_on_short_ranges [5; 2; 8; 1] (replicate 3 (replicate 4 0)) 0 3);
    [simpl; lia | reflexivity | | simpl; lia | simpl; lia].
  apply well_dimensioned_rectangle; [vm_compute; lia | simpl; lia].
Defined.

(** ** The flat query on one element and on short sequences *)

(** X9: what [query_sparse_table] returns for a single element on the table
    built over n ≥ 3 elements.  For i < n − 1 it is the level-1 entry: i when
    A[i] <= A[i+1], and i + 1 otherwise.  For i = n − 1 it is the entry at
    offset n − 1: past the end of the table when n = 3, and the first entry
    of level 2, the leftmost minimum of A[0..3], when n ≥ 4. *)
Theorem flat_single_element_query (A : list nat) :
  3 ≤ length A →
  let n := length A in
  ∃ T, preprocess_sparse_table A [] = Some T
       ∧ (∀ i a b, A !! i = Some a → A !! (i + 1) = Some b →
            query_sparse_table A i i n T
            = Some (if bool_decide (a ≤ b) then i else i + 1))
       ∧ (n = 3 → query_sparse_table A (n - 1) (n - 1) n T = None)
       ∧ (4 ≤ n → ∃ k, query_sparse_table A (n - 1) (n - 1) n T = Some k
                       ∧ leftmost_min A 0 3 k).
Proof.
  intros Hlen n.
  destruct (preprocess_sparse_table_correct A Hlen) as (T & Hrun & Hinv).
  assert (∀ i, i < n → query_sparse_table A i i n T = T !! i) as Hq.
  { intros i Hi. unfold query_sparse_table.
    by rewrite Nat.leb_refl, (proj2 (Nat.ltb_lt i n)), Nat.eqb_refl by lia. }
  exists T. split; [done |]. split; [|split].
  - intros i a b Ha Hb. pose proof (lookup_lt_Some _ _ _ Hb).
    destruct (query_sparse_table_single A T i Hinv) as (k & Hk & Hmin); [lia |].
    fold n in Hk. rewrite Hk. f_equal.
    apply (leftmost_min_unique A i (i + 1)); [done |]. by apply leftmost_min_pair.
  - intros Hn. rewrite Hq by lia. apply lookup_ge_None.
    rewrite (flat_inv_length _ _ _ Hinv). fold n. rewrite Hn. vm_compute. lia.
  - intros Hn. rewrite Hq by lia. destruct Hinv as [_ Hent].
    assert (2 ≤ lower_log2 n) by (apply Nat.log2_le_pow2; simpl; lia).
    destruct (Hent 2 0) as (k & Hk & HQ); [left; fold n; simpl; lia |].
    exists k. split; [|exact HQ].
    rewrite <- Hk. f_equal. fold n. simpl. lia.
Qed.

Lemma flat_single_element_query_witness :
  let n := length [5; 2; 8; 1] in
  ∃ T, preprocess_sparse_table [5; 2; 8; 1] [] = Some T
       ∧ (∀ i a b, [5; 2; 8; 1] !! i = Some a → [5; 2; 8; 1] !! (i + 1) = Some b →
            query_sparse_table [5; 2; 8; 1] i i n T
            = Some (if bool_decide (a ≤ b) then i else i + 1))
       ∧ (n = 3 → query_sparse_table [5; 2; 8; 1] (n - 1) (n - 1) n T = None)
       ∧ (4 ≤ n → ∃ k, query_sparse_table [5; 2; 8; 1] (n - 1) (n - 1) n T = Some k
                       ∧ leftmost_min [5; 2; 8; 1] 0 3 k).
Proof.
  apply (flat_single_element_query [5; 2; 8; 1]). simpl. lia.
Defined.

(** X10: over fewer than 3 elements the flat table stays empty, and every
    query with valid bounds, a single element included, reads the empty
    table. *)
Theorem flat_query_on_short_input (A : list nat) (i j : nat) :
  length A < 3 → i ≤ j < length A →
  preprocess_sparse_table A [] = Some []
  ∧ query_sparse_table A i j (length A) [] = None.
Proof.
  intros Hlen Hij. split.
  - unfold preprocess_sparse_table.
    rewrite preprocess_sparse_table_guard, bool_decide_eq_false_2 by lia. done.
  - unfold query_sparse_table.
    rewrite (proj2 (Nat.leb_le i j)), (proj2 (Nat.ltb_lt j (length A))) by lia.
    cbn [negb]. destruct (i =? j); [apply lookup_nil |].
    by rewrite lookup_nil.
Qed.

Lemma flat_query_on_short_input_witness :
  preprocess_sparse_table [5; 2] [] = Some []
  ∧ query_sparse_table [5; 2] 1 1 (length [5; 2]) [] = None.
Proof.
  apply (flat_query_on_short_input [5; 2] 1 1); simpl; lia.
Defined.

(** ** Further properties of the first-occurrence scans *)

Lemma for_loop_app {St : Type} a b lo (body : nat → St → option St) s :
  for_loop (a + b) lo body s = s' ← for_loop a lo body s; for_loop b (lo + a) body s'.
Proof.
  revert lo s. induction a as [|a IH]; intros lo s; simpl.
  - by rewrite Nat.add_0_r.
  - destruct (body lo s) as [s1|]; [|done]. simpl.
    rewrite IH. by replace (S lo + a) with (lo + S a) by lia.
Qed.

(** The counted scan after [n] iterations over a sequence of at least [n]
    elements: where the iterator stands, what has been seen and written. *)
Lemma representative_element_n_run (E : list nat) n :
  n ≤ length E →
  ∃ R, for_loop n 0
         (λ i '(first, seen, result),
            match first with
            | [] => None
            | x :: first' =>
                if decide (x ∈ (seen : gset nat))
                then Some (first', seen, result)
                else Some (first', {[x]} ∪ seen, result ++ [i])
            end) (E, ∅, [])
       = Some (drop n E, list_to_set (take n E), R)
       ∧ StronglySorted lt R
       ∧ (∀ k, k ∈ R ↔ k < n ∧ first_occurrence E k)
       ∧ length R = size (list_to_set (take n E) : gset nat).
Proof.
  intros Hn.
  destruct (for_loop_total
    (λ i (s : list nat * gset nat * list nat),
       s.1.1 = drop i E
       ∧ s.1.2 = list_to_set (take i E)
       ∧ StronglySorted lt s.2
       ∧ (∀ k, k ∈ s.2 ↔ k < i ∧ first_occurrence E k)
       ∧ length s.2 = size s.1.2)
    n 0
    (λ i '(first, seen, result),
       match first with
       | [] => None
       | x :: first' =>
           if decide (x ∈ (seen : gset nat))
           then Some (first', seen, result)
           else Some (first', {[x]} ∪ seen, result ++ [i])
       end) (E, ∅, []))
    as ([[first seen] R] & Hrun & HI).
  - cbn [fst snd]. split; [done |]. split; [done |].
    split; [constructor |]. split; [|by rewrite size_empty].
    intros k. split; [by intros ?%elem_of_nil | lia].
  - intros i [[first seen] result] Hi HI. cbn [fst snd] in HI.
    destruct HI as (-> & -> & Hsorted & Hmem & Hsize).
    destruct (lookup_lt_is_Some_2 E i) as [x Hx]; [lia |].
    rewrite (drop_S _ _ _ Hx).
    assert (x ∈ take i E → ¬ first_occurrence E i) as Hrep.
    { intros (k' & Hk' & Hlt)%elem_of_take (y & Hy & Hfirst). rewrite Hx in Hy.
      injection Hy as <-. by apply (Hfirst k'). }
    assert (x ∉ take i E → first_occurrence E i) as Hnew.
    { intros Hout. exists x. split; [done |].
      intros k' Hlt Hk'. apply Hout, elem_of_take. by exists k'. }
    assert (list_to_set (take (S i) E) = ({[x]} ∪ list_to_set (take i E) : gset nat))
      as Hset.
    { rewrite (take_S_r _ _ _ Hx), list_to_set_snoc_L. apply union_comm_L. }
    destruct (decide (x ∈ (list_to_set (take i E) : gset nat))) as [Hin | Hout].
    + eexists. split; [reflexivity |]. cbn [fst snd].
      split; [done |]. split.
      { rewrite Hset. symmetry. apply subseteq_union_1_L.
        by apply singleton_subseteq_l. }
      split; [done |]. split.
      * intros k. rewrite Hmem. apply elem_of_list_to_set, Hrep in Hin.
        split; intros [Hk Hf]; (split; [|done]); [lia |].
        destruct (decide (k = i)) as [-> | Hne]; [done | lia].
      * rewrite Hsize. done.
    + eexists. split; [reflexivity |]. cbn [fst snd].
      split; [done |]. split; [by rewrite Hset |].
      assert (first_occurrence E i) as Hfi.
      { apply Hnew. intros Hin. by apply Hout, elem_of_list_to_set. }
      split; [|split].
      * apply StronglySorted_app_2; [| done | repeat constructor].
        intros k1 k2 Hk1 ->%list_elem_of_singleton. by apply Hmem in Hk1 as [? _].
      * intros k. rewrite elem_of_app, list_elem_of_singleton, Hmem. split.
        -- intros [[Hk Hf] | ->]; [split; [lia | done] | split; [lia | done]].
        -- intros [Hk Hf]. destruct (decide (k = i)) as [-> | Hne]; [by right |].
           left. split; [lia | done].
      * rewrite length_app, size_union, size_singleton, Hsize; [simpl; lia |].
        by apply disjoint_singleton_l.
  - cbn [fst snd] in HI. destruct HI as (-> & -> & Hsorted & Hmem & Hsize).
    exists R. done.
Qed.

(** X11: asked for the first n elements of a sequence that has them, the
    counted overload writes, in increasing order, exactly the positions
    k < n at which an element occurs for the first time. *)
Theorem representative_element_counted_prefix (E : list nat) (n : nat) :
  n ≤ length E →
  ∃ R, jwm.representative_element_n E n = Some R
       ∧ StronglySorted lt R
       ∧ ∀ k, k ∈ R ↔ k < n ∧ first_occurrence E k.
Proof.
  intros Hn. destruct (representative_element_n_run E n Hn) as (R & Hrun & Hs & Hmem & _).
  exists R. split; [|done].
  unfold jwm.representative_element_n. rewrite Hrun. done.
Qed.

Lemma representative_element_counted_prefix_witness :
  ∃ R, jwm.representative_element_n [0; 0; 1; 0; 2; 1; 2; 1] 4 = Some R
       ∧ StronglySorted lt R
       ∧ ∀ k, k ∈ R ↔ k < 4 ∧ first_occurrence [0; 0; 1; 0; 2; 1; 2; 1] k.
Proof.
  apply (representative_element_counted_prefix [0; 0; 1; 0; 2; 1; 2; 1] 4).
  simpl. lia.
Defined.

(** X12: over a whole sequence the counted overload writes as many positions
    as the sequence has distinct elements. *)
Theorem representative_element_counted_size (E : list nat) :
  ∃ R, jwm.representative_element_n E (length E) = Some R
       ∧ length R = size (list_to_set E : gset nat).
Proof.
  destruct (representative_element_n_run E (length E)) as (R & Hrun & _ & _ & Hsize);
    [done |].
  exists R. split.
  - unfold jwm.representative_element_n. rewrite Hrun. done.
  - by rewrite firstn_all in Hsize.
Qed.

(** X13: asked for more elements than the sequence has, the counted overload
    dereferences its iterator past the end. *)
Theorem representative_element_counted_past_end (E : list nat) (n : nat) :
  length E < n → jwm.representative_element_n E n = None.
Proof.
  intros Hn.
  destruct (representative_element_n_run E (length E)) as (R & Hrun & _); [done |].
  unfold jwm.representative_element_n.
  replace n with (length E + S (n - length E - 1)) by lia.
  rewrite for_loop_app, Hrun. cbn [mbind option_bind].
  rewrite drop_all. done.
Qed.

Lemma representative_element_counted_past_end_witness :
  jwm.representative_element_n [0; 0; 1] 4 = None.
Proof.
  apply (representative_element_counted_past_end [0; 0; 1] 4). simpl. lia.
Defined.

Lemma list_pair_ind (P : list nat → Prop) :
  P [] → (∀ x, P [x]) → (∀ x y l, P l → P (x :: y :: l)) → ∀ l, P l.
Proof.
  intros Hnil Hone Hstep l.
  assert (P l ∧ ∀ x, P (x :: l)) as [H _]; [|done].
  induction l as [|y l [IH1 IH2]]; [by split |].
  split; [apply IH2 |]. intros x. by apply Hstep.
Qed.

Lemma representative_element_loop_evens first n seen result :
  jwm.representative_element_loop first n seen result
  = if Nat.even (length first)
    then '(_, _, r) ← for_loop (length (evens first)) n
                        (λ i '(first, seen, result),
                           match first with
                           | [] => None
                           | x :: first' =>
                               if decide (x ∈ (seen : gset nat))
                               then Some (first', seen, result)
                               else Some (first', {[x]} ∪ seen, result ++ [i])
                           end) (evens first, seen, result);
         Some r
    else None.
Proof.
  revert n seen result.
  induction first as [| x | x y first IH] using list_pair_ind;
    intros n seen result; [done | |].
  - simpl. by destruct (decide (x ∈ seen)).
  - cbn [jwm.representative_element_loop evens length Nat.even for_loop].
    destruct (decide (x ∈ seen)); cbn [mbind option_bind]; apply IH.
Qed.

(** X14: the iterator-range overload looks at the elements at the even
    positions only.  On a sequence of even length it returns what the counted
    overload returns on the subsequence E[0], E[2], E[4], ..., so that a
    position k it writes stands for E[2k]; on a sequence of odd length its
    iterator steps over [last]. *)
Theorem representative_element_range_evens (E : list nat) :
  jwm.representative_element E
  = if Nat.even (length E)
    then jwm.representative_element_n (evens E) (length (evens E))
    else None.
Proof.
  unfold jwm.representative_element, jwm.representative_element_n.
  apply representative_element_loop_evens.
Qed.

(** ** The LCA front end *)

Lemma back_inserter_app (C written : list nat) :
  graph_algorithms.back_inserter C written = C ++ written.
Proof.
  unfold graph_algorithms.back_inserter. revert C.
  induction written as [|v written IH]; intros C; simpl.
  - by rewrite app_nil_r.
  - by rewrite IH, <- app_assoc.
Qed.




Lemma transform_element_index_lookup E k0 (R : gmap nat nat) x r :
  graph_algorithms.transform_element_index E k0 R !! x = Some r ↔
  R !! x = Some r
  ∨ (R !! x = None
     ∧ ∃ i, r = k0 + i ∧ E !! i = Some x ∧ ∀ i', i' < i → E !! i' ≠ Some x).
Proof.
  revert k0 R. induction E as [|v E IH]; intros k0 R; simpl.
  { split; [by left |]. intros [H | (_ & i & _ & Hi & _)]; [done |].
    by rewrite lookup_nil in Hi. }
  rewrite IH.
  assert (x ≠ v →
          (∃ i, r = S k0 + i ∧ E !! i = Some x ∧ ∀ i', i' < i → E !! i' ≠ Some x)
          ↔ (∃ i, r = k0 + i ∧ (v :: E) !! i = Some x
                  ∧ ∀ i', i' < i → (v :: E) !! i' ≠ Some x)) as Hshift.
  { intros Hxv. split.
    - intros (i & -> & Hi & Hfirst). exists (S i). split; [lia |]. split; [done |].
      intros [|i'] Hlt; simpl; [congruence | apply Hfirst; lia].
    - intros (i & -> & Hi & Hfirst). destruct i as [|i]; [simpl in Hi; congruence |].
      exists i. split; [lia |]. split; [done |].
      intros i' Hlt. apply (Hfirst (S i')). lia. }
  destruct (R !! v) as [w|] eqn:HRv.
  - split; (intros [H | [HN Hex]]; [by left | right; split; [done |]]);
      apply Hshift; try done; congruence.
  - destruct (decide (x = v)) as [-> | Hxv].
    + rewrite lookup_insert_eq, HRv. split.
      * intros [[= <-] | [? _]]; [|done]. right. split; [done |].
        exists 0. split; [lia |]. split; [done |]. intros i' Hlt. lia.
      * intros [? | (_ & i & -> & Hi & Hfirst)]; [done |]. left.
        destruct i as [|i]; [f_equal; lia |].
        exfalso. by apply (Hfirst 0); [lia |].
    + rewrite lookup_insert_ne by done.
      split; (intros [H | [HN Hex]]; [by left | right; split; [done |]]);
        by apply Hshift.
Qed.


(** The swap of [lca_query]: the callee is given the two positions in
    ascending order. *)
Lemma lca_query_positions {Table : Type}
    (query : nat → nat → list nat → Table → option nat)
    (u v i j : nat) (E L : list nat) (R : gmap nat nat) (M : Table) :
  R !! u = Some i → R !! v = Some j →
  graph_algorithms.lca_query query u v E L R M
  = query (i `min` j) (i `max` j) L M ≫= (E !!.).
Proof.
  intros Hu Hv. unfold graph_algorithms.lca_query.
  rewrite Hu, Hv. cbn [mbind option_bind].
  case_bool_decide.
  - by replace (i `min` j) with j by lia; replace (i `max` j) with i by lia.
  - by replace (i `min` j) with i by lia; replace (i `max` j) with j by lia.
Qed.

(** C1: with the calls completed by the functions of [RMQ.hpp] that take
    their parameters, the tree with edges 0→1, 1→2, 1→6, 2→3, 2→4, 2→5,
    preprocessed into a 4 × 13 array, has the lowest common ancestor 1 for the
    vertices 3 and 6, and the query returns the root 0: the positions 3 and
    10 are 8 apart and the second window read starts at 5 and reaches the end
    of the tour.  With the calls completed by name, the lowest common
    ancestor of 3 and 3 is 3 and the query returns 2. *)
Theorem lca_query_wrong_ancestor :
  (∃ E L R M,
     graph_algorithms.lca_preprocess index_preprocess_sparse_table
       (Some long_tour_tree) [] [] ∅ (replicate 4 (replicate 13 0)) = Some (E, L, R, M)
     ∧ E = [0; 1; 2; 3; 2; 4; 2; 5; 2; 1; 6; 1; 0]
     ∧ L = [0; 1; 2; 3; 2; 3; 2; 3; 2; 1; 2; 1; 0]
     ∧ R !! 3 = Some 3 ∧ R !! 6 = Some 10
     ∧ read2 M 3 3 = Some 9 ∧ read2 M 3 (3 + (8 - 2 * 3)) = Some 12
     ∧ lca_reference long_tour_tree 3 6 = Some 1
     ∧ graph_algorithms.lca_query index_query_sparse_table 3 6 E L R M = Some 0)
  ∧ (∃ E L R M,
       graph_algorithms.lca_preprocess preprocess_by_name
         (Some long_tour_tree) [] [] ∅ [] = Some (E, L, R, M)
       ∧ lca_reference long_tour_tree 3 3 = Some 3
       ∧ graph_algorithms.lca_query query_by_name 3 3 E L R M = Some 2).
Proof.
  split.
  - eexists _, _, _, _. split; [vm_compute; reflexivity |].
    repeat split; vm_compute; reflexivity.
  - eexists _, _, _, _. split; [vm_compute; reflexivity |].
    split; vm_compute; reflexivity.
Qed.






(** X15: the two vertices of an LCA query can be given in either order, as
    the comment above [lca_query] says: the positions are swapped when they
    are out of order, so both orders make the same call, whichever range
    query is called. *)
Theorem lca_query_symmetric {Table : Type}
    (query : nat → nat → list nat → Table → option nat)
    (u v : nat) (E L : list nat) (R : gmap nat nat) (M : Table) :
  graph_algorithms.lca_query query u v E L R M
  = graph_algorithms.lca_query query v u E L R M.
Proof.
  unfold graph_algorithms.lca_query.
  destruct (R !! u) as [i|], (R !! v) as [j|]; simpl; try done.
  destruct (Nat.lt_trichotomy i j) as [Hlt | [-> | Hgt]].
  - rewrite (bool_decide_eq_false_2 (j < i)), (bool_decide_eq_true_2 (i < j)) by lia.
    done.
  - done.
  - rewrite (bool_decide_eq_true_2 (j < i)), (bool_decide_eq_false_2 (i < j)) by lia.
    done.
Qed.

(** X16: the query of a vertex with itself returns the tour entry at R[u]
    whenever the range query called returns i for the range from i to i; and
    [index_query_sparse_table] does so whatever the array M holds, built or
    not, since for i = j it does not read it. *)
Theorem lca_query_same_vertex {Table : Type}
    (query : nat → nat → list nat → Table → option nat)
    (u i : nat) (E L : list nat) (R : gmap nat nat) (M : Table) (M2 : table2) :
  R !! u = Some i →
  query i i L M = Some i →
  graph_algorithms.lca_query query u u E L R M = E !! i
  ∧ graph_algorithms.lca_query index_query_sparse_table u u E L R M2 = E !! i.
Proof.
  intros HR Hq. rewrite !(lca_query_positions _ u u i i) by done.
  rewrite Nat.min_id, Nat.max_id, Hq. split; [done |].
  unfold index_query_sparse_table. by rewrite Nat.leb_refl, Nat.eqb_refl.
Qed.

Lemma lca_query_same_vertex_witness :
  graph_algorithms.lca_query index_query_sparse_table 7 7
    [5; 6; 7; 6; 5] [0; 1; 2; 1; 0] {[7 := 2]} [[]; [0; 1; 3; 3]; [0; 4]]
  = [5; 6; 7; 6; 5] !! 2
  ∧ graph_algorithms.lca_query index_query_sparse_table 7 7
      [5; 6; 7; 6; 5] [0; 1; 2; 1; 0] {[7 := 2]} []
    = [5; 6; 7; 6; 5] !! 2.
Proof.
  apply (lca_query_same_vertex index_query_sparse_table 7 2 [5; 6; 7; 6; 5]
           [0; 1; 2; 1; 0] {[7 := 2]} [[]; [0; 1; 3; 3]; [0; 4]] []);
    reflexivity.
Defined.

(** X17: the query of two vertices whose positions i = R[u] and j = R[v] in
    the tour differ and span fewer than 8 tour entries, on the array built by
    [index_preprocess_sparse_table] over a depth sequence L of at least 3
    entries and queried by [index_query_sparse_table]: it returns E[m], where
    m is the leftmost position of minimum depth between the two positions,
    whichever order they come in. *)
Theorem lca_query_min_depth_entry (u v i j : nat) (E L : list nat)
    (R : gmap nat nat) (M0 : table2) :
  3 ≤ length L →
  well_dimensioned (length L) M0 →
  R !! u = Some i → R !! v = Some j →
  i ≠ j → i < length L → j < length L →
  (i `max` j) - (i `min` j) + 1 < 8 →
  ∃ M m, index_preprocess_sparse_table L M0 = Some M
         ∧ graph_algorithms.lca_query index_query_sparse_table u v E L R M = E !! m
         ∧ leftmost_min L (i `min` j) (i `max` j) m.
Proof.
  intros Hlen Hdim HRu HRv Hne Hi Hj Hshort.
  destruct (index_preprocess_sparse_table_correct L M0 Hlen Hdim) as (M & Hrun & Hinv).
  destruct (index_query_sparse_table_correct L M0 M (i `min` j) (i `max` j) Hinv)
    as (m & Hq & Hmin); [lia | lia |].
  exists M, m. split; [done |]. split; [|done].
  rewrite (lca_query_positions _ u v i j) by done. by rewrite Hq.
Qed.

Lemma lca_query_min_depth_entry_witness :
  ∃ M m, index_preprocess_sparse_table [0; 1; 2; 1; 0] (replicate 3 (replicate 5 0)) = Some M
         ∧ graph_algorithms.lca_query index_query_sparse_table 7 5
             [5; 6; 7; 6; 5] [0; 1; 2; 1; 0] {[7 := 2; 5 := 0]} M
           = [5; 6; 7; 6; 5] !! m
         ∧ leftmost_min [0; 1; 2; 1; 0] (2 `min` 0) (2 `max` 0) m.
Proof.
  apply (lca_query_min_depth_entry 7 5 2 0 [5; 6; 7; 6; 5] [0; 1; 2; 1; 0]
           {[7 := 2; 5 := 0]} (replicate 3 (replicate 5 0)));
    [simpl; lia | | reflexivity | reflexivity | lia | simpl; lia | simpl; lia | simpl; lia].
  apply well_dimensioned_rectangle; [vm_compute; lia | simpl; lia].
Defined.

(** X18: the representative map after [lca_preprocess], the transform over E
    read as the comment in the source describes it (an insert does not
    replace), whichever builder is called, as long as it returns.  A vertex
    that was in R before the call keeps its entry; any other vertex gets an
    entry exactly when it occurs in the tour E, and the entry is the position
    of its first occurrence, so that E[R[u]] = u. *)
Theorem lca_preprocess_representatives {Table : Type}
    (preprocess : list nat → Table → option Table)
    (T : graph_algorithms.graph) (E0 : list nat) (R0 : gmap nat nat) (M0 : Table) :
  is_Some (preprocess (graph_algorithms.dfs_vertex_depth T) M0) →
  ∃ E L R M,
    graph_algorithms.lca_preprocess preprocess T E0 [] R0 M0 = Some (E, L, R, M)
    ∧ (∀ u r, R0 !! u = Some r → R !! u = Some r)
    ∧ (∀ u k, R0 !! u = None →
         (R !! u = Some k ↔ E !! k = Some u ∧ ∀ k', k' < k → E !! k' ≠ Some u)).
Proof.
  intros [M HM].
  eexists _, _, _, _. split.
  { unfold graph_algorithms.lca_preprocess. rewrite !back_inserter_app.
    cbn [app]. rewrite HM. reflexivity. }
  split.
  - intros u r Hu. apply transform_element_index_lookup. by left.
  - intros u k Hu. rewrite transform_element_index_lookup. split.
    + intros [H | (_ & i & -> & Hi & Hfirst)]; [congruence |]. done.
    + intros [Hk Hfirst]. right. split; [done |]. by exists k.
Qed.

Lemma lca_preprocess_representatives_witness :
  ∃ E L R M,
    graph_algorithms.lca_preprocess index_preprocess_sparse_table
      (Some scenario_tree) [] [] {[3 := 8]} (replicate 4 (replicate 9 0))
    = Some (E, L, R, M)
    ∧ (∀ u r, ({[3 := 8]} : gmap nat nat) !! u = Some r → R !! u = Some r)
    ∧ (∀ u k, ({[3 := 8]} : gmap nat nat) !! u = None →
         (R !! u = Some k ↔ E !! k = Some u ∧ ∀ k', k' < k → E !! k' ≠ Some u)).
Proof.
  apply (lca_preprocess_representatives index_preprocess_sparse_table
           (Some scenario_tree) [] {[3 := 8]} (replicate 4 (replicate 9 0))).
  vm_compute. eauto.
Defined.

(** ** The 2D query on long ranges *)

Lemma double_le_pow2 k : 1 ≤ k → 2 * k ≤ 2 ^ k.
Proof.
  induction k as [|k IH]; [lia |]. intros _.
  destruct (decide (k = 0)) as [-> | Hk]; [simpl; lia |].
  specialize (IH ltac:(lia)). simpl. lia.
Qed.

(** X19: which range [index_query_sparse_table] answers.  With k <= 32 the
    level of the range [i, j] (up to that level the 2D entries are window
    minima), its second read is the window that starts at j + 1 − 2k.  When
    that window is an entry of the table and the range has at most 2^k + 2k
    elements (so that the two windows leave no gap), the query returns the
    leftmost minimum of A[i .. j + 2^k − 2k]: the range asked for while
    k <= 2, and a range that reaches past j from 8 elements on. *)
Theorem index_query_answers_wider_range (A : list nat) (M0 : table2) (i j : nat) :
  3 ≤ length A →
  well_dimensioned (length A) M0 →
  i < j < length A →
  let k := lower_log2 (j - i + 1) in
  k ≤ 32 →
  j + 2 ^ k - 2 * k < length A →
  j - i + 1 ≤ 2 ^ k + 2 * k →
  ∃ M m, index_preprocess_sparse_table A M0 = Some M
         ∧ index_query_sparse_table i j A M = Some m
         ∧ leftmost_min A i (j + 2 ^ k - 2 * k) m
         ∧ (j - i + 1 < 8 → j + 2 ^ k - 2 * k = j)
         ∧ (8 ≤ j - i + 1 → j < j + 2 ^ k - 2 * k).
Proof.
  intros Hlen Hdim Hij k Hk32 Hwide Hgap.
  destruct (index_preprocess_sparse_table_correct A M0 Hlen Hdim) as (M & Hrun & [_ Hent]).
  destruct (query_level i j (length A) Hij) as (Hk & Hr & Hn). fold k in Hk, Hr, Hn.
  pose proof (double_le_pow2 k ltac:(lia)) as H2k.
  assert (2 ^ S k = 2 ^ k + 2 ^ k) as Hp by (simpl; lia).
  destruct (Hent k i) as (x & Hx & HQx); [left; lia |].
  destruct (Hent k (j + 1 - 2 * k)) as (y & Hy & HQy); [left; lia |].
  apply (index_entry_low A k) in HQx; [|lia].
  apply (index_entry_low A k) in HQy; [|lia].
  destruct (window_min_valid _ _ _ _ HQx) as [vx Hvx].
  destruct (window_min_valid _ _ _ _ HQy) as [vy Hvy].
  exists M, (if bool_decide (vy < vx) then y else x).
  split; [done |]. split; [|split; [|split]].
  - unfold index_query_sparse_table. fold k.
    rewrite (proj2 (Nat.leb_le i j)) by lia.
    rewrite (proj2 (Nat.eqb_neq i j)) by lia. cbn [negb].
    replace (i + (j - i + 1 - 2 * k)) with (j + 1 - 2 * k) by lia.
    rewrite Hx. cbn [mbind option_bind]. rewrite Hy. cbn [mbind option_bind].
    rewrite Hvx. cbn [mbind option_bind]. rewrite Hvy. done.
  - unfold window_min in HQx, HQy.
    replace (j + 1 - 2 * k + 2 ^ k - 1) with (j + 2 ^ k - 2 * k) in HQy by lia.
    eapply leftmost_min_join; eauto; lia.
  - intros Hshort.
    assert (k < 3) as Hk3.
    { apply (Nat.pow_lt_mono_r_iff 2); [lia |]. simpl. lia. }
    destruct k as [|[|[|k']]]; simpl; lia.
  - intros Hlong.
    assert (3 ≤ k) as Hk3.
    { unfold k, lower_log2. apply Nat.log2_le_pow2; simpl; lia. }
    assert (2 * k < 2 ^ k); [|lia].
    clear -Hk3. induction k as [|k IH]; [lia |].
    destruct (decide (k = 2)) as [-> | Hne]; [simpl; lia |].
    specialize (IH ltac:(lia)). simpl. lia.
Qed.

Lemma index_query_answers_wider_range_witness :
  let A := [5; 5; 5; 5; 5; 5; 5; 5; 5; 0] in
  let k := lower_log2 (7 - 0 + 1) in
  ∃ M m, index_preprocess_sparse_table A (replicate 4 (replicate 10 0)) = Some M
         ∧ index_query_sparse_table 0 7 A M = Some m
         ∧ leftmost_min A 0 (7 + 2 ^ k - 2 * k) m
         ∧ (7 - 0 + 1 < 8 → 7 + 2 ^ k - 2 * k = 7)
         ∧ (8 ≤ 7 - 0 + 1 → 7 < 7 + 2 ^ k - 2 * k).
Proof.
  apply (index_query_answers_wider_range [5; 5; 5; 5; 5; 5; 5; 5; 5; 0]
           (replicate 4 (replicate 10 0)) 0 7);
    [simpl; lia | | simpl; lia | vm_compute; lia | vm_compute; lia | vm_compute; lia].
  apply well_dimensioned_rectangle; [vm_compute; lia | simpl; lia].
Defined.
